(** * GROA: Greedy Respiration Optimization Algorithm (multi-objective)

    A shallow embedding of [GROA.py] and the properties of its fitness
    evaluator, dominance relation, front ranker, pressure scheduler, phase
    operators and main loop.

    Numbers.  The program computes with NumPy [float64] values.  They are
    modelled twice.

    - In the model of the whole program (module [Float]) a finite value is
      an exact rational: rounding and overflow are not modelled.  The two
      infinities and NaN are kept, with the IEEE 754 rules for arithmetic
      and comparison on them.  This model carries the properties that rest
      on comparisons, on the order of the computation, on shapes and on
      errors.

    - The pressure scheduler and the arithmetic of the two phase operators
      and of the clamp are modelled again on binary64 values (module [B64]):
      every operation is rounded to nearest, ties to even, and overflows to
      an infinity.  The properties of the pressure values and of the clamp,
      which depend on rounding and overflow, are stated on this model.

    Randomness.  The process-wide generator [np.random] is modelled by an
    arbitrary infinite stream of raw words together with a read position;
    every draw consumes one word.

    Errors.  Python exceptions are results [Raise e]; a [while] loop that
    has not finished within the supplied fuel is the result [OutOfFuel]. *)

From Stdlib Require Import List ZArith QArith Bool Arith Lia Lqa Permutation Sorted.
From Stdlib Require Import SpecFloat.
Import ListNotations.

Open Scope Q_scope.

(* ------------------------------------------------------------------ *)
(** ** Floating-point values *)

Module Float.

Inductive float : Type :=
| Fin (q : Q)        (* a finite value *)
| Inf (neg : bool)   (* [Inf false] is +inf, [Inf true] is -inf *)
| NaN.

Definition Qlt_bool (x y : Q) : bool := negb (Qle_bool y x).

Definition zero : float := Fin 0.
Definition one : float := Fin 1.

Definition is_finite (x : float) : bool :=
  match x with Fin _ => true | _ => false end.

Definition is_nan (x : float) : bool :=
  match x with NaN => true | _ => false end.

(** [x <= y], [x < y], [x == y]: false as soon as one side is NaN. *)
Definition leb (x y : float) : bool :=
  match x, y with
  | NaN, _ | _, NaN => false
  | Fin a, Fin b => Qle_bool a b
  | Inf true, _ => true
  | _, Inf false => true
  | Inf false, _ => false
  | _, Inf true => false
  end.

Definition ltb (x y : float) : bool :=
  match x, y with
  | NaN, _ | _, NaN => false
  | Fin a, Fin b => Qlt_bool a b
  | Inf true, Inf true => false
  | Inf true, _ => true
  | Inf false, _ => false
  | Fin _, Inf s => negb s
  end.

Definition eqb (x y : float) : bool :=
  match x, y with
  | Fin a, Fin b => Qeq_bool a b
  | Inf s, Inf s' => Bool.eqb s s'
  | _, _ => false
  end.

Definition opp (x : float) : float :=
  match x with
  | Fin a => Fin (- a)
  | Inf s => Inf (negb s)
  | NaN => NaN
  end.

Definition add (x y : float) : float :=
  match x, y with
  | NaN, _ | _, NaN => NaN
  | Fin a, Fin b => Fin (a + b)
  | Inf s, Fin _ | Fin _, Inf s => Inf s
  | Inf s, Inf s' => if Bool.eqb s s' then Inf s else NaN
  end.

Definition sub (x y : float) : float := add x (opp y).

(** The sign of a finite non-zero rational, as the [neg] flag of [Inf]. *)
Definition Qneg (a : Q) : bool := Qlt_bool a 0.

Definition mul (x y : float) : float :=
  match x, y with
  | NaN, _ | _, NaN => NaN
  | Fin a, Fin b => Fin (a * b)
  | Inf s, Fin a | Fin a, Inf s =>
      if Qeq_bool a 0 then NaN else Inf (xorb s (Qneg a))
  | Inf s, Inf s' => Inf (xorb s s')
  end.

(** [x ** 2] *)
Definition pow2 (x : float) : float := mul x x.

(** [np.maximum] and [np.minimum]: a NaN operand gives NaN. *)
Definition maximum (x y : float) : float :=
  match x, y with
  | NaN, _ | _, NaN => NaN
  | _, _ => if ltb x y then y else x
  end.

Definition minimum (x y : float) : float :=
  match x, y with
  | NaN, _ | _, NaN => NaN
  | _, _ => if ltb y x then y else x
  end.

(** [np.clip(x, lo, hi)] is [np.minimum(np.maximum(x, lo), hi)]. *)
Definition clip (x lo hi : float) : float := minimum (maximum x lo) hi.

(** Python's builtin [max(a, b)]: [b] replaces [a] only when [b > a]. *)
Definition py_max (a b : float) : float := if ltb a b then b else a.

(** [0 <= x <= 1] for a finite [x]; false for the infinities and NaN. *)
Definition in_unit (x : float) : Prop :=
  match x with
  | Fin q => 0 <= q <= 1
  | _ => False
  end.

(** Values that are zero or more: a finite non-negative number or +inf. *)
Definition nonneg (v : float) : Prop := leb zero v = true.

End Float.

Import Float.

(* ------------------------------------------------------------------ *)
(** ** Exceptions and results *)

Inductive exn : Type := IndexError | ValueError | ZeroDivisionError.

Inductive outcome (A : Type) : Type :=
| Ok (a : A)
| Raise (e : exn)
| OutOfFuel.

Arguments Ok {A} a.
Arguments Raise {A} e.
Arguments OutOfFuel {A}.

Definition obind {A B} (m : outcome A) (k : A -> outcome B) : outcome B :=
  match m with
  | Ok a => k a
  | Raise e => Raise e
  | OutOfFuel => OutOfFuel
  end.

Declare Scope outcome_scope.
Delimit Scope outcome_scope with outcome.
Notation "x <- m ;; k" := (obind m (fun x => k))
  (at level 61, m at next level, right associativity) : outcome_scope.
Notation "' p <- m ;; k" := (obind m (fun x => match x with p => k end))
  (at level 61, p pattern, m at next level, right associativity) : outcome_scope.

(** [xs[i]] for a non-negative index. *)
Definition getitem {A} (xs : list A) (i : nat) : outcome A :=
  match nth_error xs i with
  | Some x => Ok x
  | None => Raise IndexError
  end.

Fixpoint omap {A B} (f : A -> outcome B) (xs : list A) : outcome (list B) :=
  match xs with
  | [] => Ok []
  | x :: xs' =>
      (y <- f x ;; ys <- omap f xs' ;; Ok (y :: ys))%outcome
  end.

(* ------------------------------------------------------------------ *)
(** ** Data model *)

Definition individual := list float.
Definition population := list individual.
Definition objective_vector := list float.
Definition front := list nat.

(* ------------------------------------------------------------------ *)
(** ** Objective functions and penalty *)

Definition objective_1 (x : individual) : outcome float :=
  (x0 <- getitem x 0 ;; x1 <- getitem x 1 ;; x2 <- getitem x 2 ;;
   Ok (add (add (pow2 x0) (pow2 x1)) (pow2 x2)))%outcome.

Definition objective_2 (x : individual) : outcome float :=
  (x0 <- getitem x 0 ;; x1 <- getitem x 1 ;; x2 <- getitem x 2 ;;
   Ok (add (add (pow2 (sub x0 (Fin 2))) (pow2 (sub x1 (Fin 1)))) (pow2 x2)))%outcome.

(** [sum(penalties)]: the builtin starts from 0 and adds left to right. *)
Definition py_sum (xs : list float) : float := fold_left add xs zero.

Definition penalty (x : individual) : outcome float :=
  (x0 <- getitem x 0 ;; x1 <- getitem x 1 ;;
   let c1 := py_max zero (sub (add x0 x1) (Fin 2.5)) in
   x2 <- getitem x 2 ;;
   let c2 := py_max zero (sub (Fin 0.5) x2) in
   Ok (py_sum [c1; c2]))%outcome.

(* ------------------------------------------------------------------ *)
(** ** Evaluation with penalties *)

Definition evaluate_individual (ind : individual)
  : outcome (objective_vector * bool) :=
  (f1 <- objective_1 ind ;;
   f2 <- objective_2 ind ;;
   pen <- penalty ind ;;
   if eqb pen zero then Ok ([f1; f2], true)
   else Ok ([add f1 (mul (Fin 1000) pen); add f2 (mul (Fin 1000) pen)], false))%outcome.

Definition evaluate_population (pop : population)
  : outcome (list objective_vector * list bool) :=
  (rows <- omap evaluate_individual pop ;;
   Ok (map fst rows, map snd rows))%outcome.

(* ------------------------------------------------------------------ *)
(** ** Non-dominated sorting *)

(** [all(a <= b) and any(a < b)], element by element. *)
Definition dominates (a b : objective_vector) : bool :=
  forallb (fun p => leb (fst p) (snd p)) (combine a b)
  && existsb (fun p => ltb (fst p) (snd p)) (combine a b).

(** [objectives[i]]; every index the ranker uses comes from
    [range(len(objectives))]. *)
Definition row (objectives : list objective_vector) (i : nat) : objective_vector :=
  nth i objectives [].

(** Indices that [objectives[i]] accepts. *)
Definition valid_indices (objectives : list objective_vector) (l : list nat) : Prop :=
  Forall (fun i => (i < length objectives)%nat) l.

(** The inner [for j in remaining] loop with its [break]. *)
Definition is_dominated (objectives : list objective_vector)
    (remaining : list nat) (i : nat) : bool :=
  existsb (fun j => negb (Nat.eqb i j) && dominates (row objectives j) (row objectives i))
    remaining.

(** One pass of the [while] body: the front built from [remaining]. *)
Definition next_front (objectives : list objective_vector)
    (remaining : list nat) : front :=
  filter (fun i => negb (is_dominated objectives remaining i)) remaining.

(** [[i for i in remaining if i not in front]] *)
Definition remove_front (remaining : list nat) (fr : front) : list nat :=
  filter (fun i => negb (existsb (Nat.eqb i) fr)) remaining.

(** The [while remaining:] loop; [None] when the fuel is used up before
    [remaining] is empty. *)
Fixpoint pareto_loop (fuel : nat) (objectives : list objective_vector)
    (remaining : list nat) : option (list front) :=
  match remaining with
  | [] => Some []
  | _ :: _ =>
      match fuel with
      | O => None
      | S fuel' =>
          let fr := next_front objectives remaining in
          option_map (cons fr)
            (pareto_loop fuel' objectives (remove_front remaining fr))
      end
  end.

Definition pareto_sort (objectives : list objective_vector)
    (feasibles : list bool) : outcome (list front) :=
  match pareto_loop (length objectives) objectives (seq 0 (length objectives)) with
  | Some fronts => Ok fronts
  | None => OutOfFuel
  end.

(* ------------------------------------------------------------------ *)
(** ** The random generator *)

(** [np.random]: an arbitrary stream of raw words and the read position. *)
Record rng : Type := mk_rng { words : nat -> Z; pos : nat }.

Definition two53 : positive := 9007199254740992.

(** One uniform draw in [[0, 1)]: 53 bits of the next word over [2^53]. *)
Definition random_sample (g : rng) : float * rng :=
  (Fin ((words g (pos g) mod Zpos two53) # two53), mk_rng (words g) (S (pos g))).

Fixpoint sample_row (d : nat) (g : rng) : list float * rng :=
  match d with
  | O => ([], g)
  | S d' =>
      let (u, g1) := random_sample g in
      let (us, g2) := sample_row d' g1 in
      (u :: us, g2)
  end.

(** [n] rows of [d] draws, row by row. *)
Fixpoint sample_rows (n d : nat) (g : rng) : list (list float) * rng :=
  match n with
  | O => ([], g)
  | S n' =>
      let (r, g1) := sample_row d g in
      let (rs, g2) := sample_rows n' d g1 in
      (r :: rs, g2)
  end.

(** Computations that read the generator and may raise. *)
Definition M (A : Type) : Type := rng -> outcome (A * rng).

Definition mret {A} (a : A) : M A := fun g => Ok (a, g).

Definition mbind {A B} (m : M A) (k : A -> M B) : M B :=
  fun g =>
    match m g with
    | Ok (a, g') => k a g'
    | Raise e => Raise e
    | OutOfFuel => OutOfFuel
    end.

Definition lift {A} (o : outcome A) : M A :=
  fun g =>
    match o with
    | Ok a => Ok (a, g)
    | Raise e => Raise e
    | OutOfFuel => OutOfFuel
    end.

Declare Scope rand_scope.
Delimit Scope rand_scope with rand.
Notation "x <- m ;; k" := (mbind m (fun x => k))
  (at level 61, m at next level, right associativity) : rand_scope.
Notation "' p <- m ;; k" := (mbind m (fun x => match x with p => k end))
  (at level 61, p pattern, m at next level, right associativity) : rand_scope.

(** Element-wise array arithmetic. *)
Definition map2 {A B C} (f : A -> B -> C) (xs : list A) (ys : list B) : list C :=
  map (fun p => f (fst p) (snd p)) (combine xs ys).

Definition arr_add (a b : population) : population := map2 (map2 add) a b.
Definition arr_mul (a b : population) : population := map2 (map2 mul) a b.
(** [c * a] for a scalar [c]. *)
Definition arr_scale (c : float) (a : population) : population := map (map (mul c)) a.
(** [best - a]: the row [best] against every row of [a]. *)
Definition arr_rsub (best : individual) (a : population) : population :=
  map (fun r => map2 sub best r) a.
(** [np.clip(a, lo, hi)] *)
Definition np_clip (a : population) (lo hi : float) : population :=
  map (map (fun x => clip x lo hi)) a.

(** [a.shape] of a two-dimensional array. *)
Definition shape (a : population) : nat * nat := (length a, length (hd [] a)).

(** [np.random.rand(n, d)] for a shape already known to be valid. *)
Definition np_rand (sh : nat * nat) : M population :=
  fun g => Ok (sample_rows (fst sh) (snd sh) g).

(** [np.random.uniform(low, high, sh)]: [low + (high - low) * random_sample()]. *)
Definition np_uniform (low high : float) (sh : nat * nat) : M population :=
  (u <- np_rand sh ;;
   mret (map (map (fun x => add low (mul (sub high low) x))) u))%rand.

(** [np.random.randint(n)]: an index below [n]; [ValueError] when [n] is 0. *)
Definition np_randint (n : nat) : M nat :=
  fun g =>
    match n with
    | O => Raise ValueError
    | S _ => Ok (Z.to_nat (words g (pos g) mod Z.of_nat n), mk_rng (words g) (S (pos g)))
    end.

(** [a[indices]] for a list of row indices. *)
Definition take (a : population) (indices : list nat) : outcome population :=
  omap (getitem a) indices.

(* ------------------------------------------------------------------ *)
(** ** Initialization, phase operators, pressure *)

(** [np.random.rand(pop_size, dim)] rejects a negative dimension. *)
Definition initialize_population (pop_size dim : Z) : M population :=
  if ((pop_size <? 0) || (dim <? 0))%Z then lift (Raise ValueError)
  else np_rand (Z.to_nat pop_size, Z.to_nat dim).

(** The arithmetic of the two phase operators for given random arrays. *)
Definition inflow_with (pop : population) (pressure : float) (noise : population)
  : population :=
  arr_add pop (arr_scale pressure noise).

Definition outflow_with (pop : population) (best : individual) (pressure : float)
    (r : population) : population :=
  arr_add pop (arr_mul (arr_scale pressure (arr_rsub best pop)) r).

Definition inflow_phase (pop : population) (pressure : float) : M population :=
  (noise <- np_uniform (Fin (-1)) (Fin 1) (shape pop) ;;
   mret (inflow_with pop pressure noise))%rand.

Definition outflow_phase (pop : population) (best : individual) (pressure : float)
  : M population :=
  (r <- np_rand (shape pop) ;;
   mret (outflow_with pop best pressure r))%rand.

(** [1 - (iteration / max_iter)] on Python integers, as an exact rational;
    [B64.update_pressure] is the same function with its two roundings. *)
Definition update_pressure (iteration max_iter : Z) : outcome float :=
  if (max_iter =? 0)%Z then Raise ZeroDivisionError
  else Ok (sub one (Fin (inject_Z iteration / inject_Z max_iter))).

(* ------------------------------------------------------------------ *)
(** ** Main loop *)

(** The body of [for t in range(max_iter)]: the new population and the new
    archive. *)
Definition groa_iter (t max_iter : Z) (pop : population)
  : M (population * population) :=
  (pressure <- lift (update_pressure t max_iter) ;;
   ' (obj_vals, feasibles) <- lift (evaluate_population pop) ;;
   fronts <- lift (pareto_sort obj_vals feasibles) ;;
   best_indices <- lift (getitem fronts 0) ;;
   best_solutions <- lift (take pop best_indices) ;;
   k <- np_randint (length best_solutions) ;;
   best <- lift (getitem best_solutions k) ;;
   pop1 <- inflow_phase pop pressure ;;
   let pop1 := np_clip pop1 zero one in
   pressure <- lift (update_pressure t max_iter) ;;
   pop2 <- outflow_phase pop1 best pressure ;;
   let pop2 := np_clip pop2 zero one in
   best_archive <- lift (take pop2 best_indices) ;;
   mret (pop2, best_archive))%rand.

(** [n] further iterations starting at iteration number [t]. *)
Fixpoint groa_loop (n : nat) (t max_iter : Z) (pop best_archive : population)
  : M (population * population) :=
  match n with
  | O => mret (pop, best_archive)
  | S n' =>
      (' (pop', archive') <- groa_iter t max_iter pop ;;
       groa_loop n' (t + 1)%Z max_iter pop' archive')%rand
  end.

Definition groa (pop_size dim max_iter : Z)
  : M (population * list objective_vector) :=
  (pop <- initialize_population pop_size dim ;;
   ' (_, best_archive) <- groa_loop (Z.to_nat max_iter) 0%Z max_iter pop [] ;;
   ' (final_obj, _) <- lift (evaluate_population best_archive) ;;
   mret (best_archive, final_obj))%rand.

(** An example generator, for evaluating runs: its word at position [n] is
    [n * 2654435761 + 12345]. *)
Definition test_rng : rng := mk_rng (fun n => (Z.of_nat n * 2654435761 + 12345)%Z) 0.

(* ------------------------------------------------------------------ *)
(** ** Predicates on arrays *)

(** Every coordinate is a real number (neither an infinity nor NaN). *)
Definition all_finite (a : population) : Prop :=
  Forall (Forall (fun x => is_finite x = true)) a.


(** Every coordinate lies in the closed interval [[0, 1]]. *)
Definition all_in_unit (a : population) : Prop :=
  Forall (Forall in_unit) a.

(** [0 <= x < 1] for a finite [x]. *)
Definition in_half_open (x : float) : Prop :=
  match x with
  | Fin q => 0 <= q < 1
  | _ => False
  end.

(** [a] has [n] rows of [d] coordinates. *)
Definition has_shape (n d : nat) (a : population) : Prop :=
  length a = n /\ Forall (fun r => length r = d) a.

(* ------------------------------------------------------------------ *)
(** ** Binary64 arithmetic

    The scheduler and the two phase operators once more, this time on
    IEEE 754 binary64 values with every operation rounded to nearest, ties
    to even, and overflowing to an infinity ([SpecFloat] with a precision of
    53 bits and [emax = 1024]).  What the clamp and the scheduler guarantee
    depends on rounding and overflow, so their properties are stated on
    these definitions. *)

Module B64.

Local Open Scope Z_scope.

Definition prec : Z := 53.
Definition emax : Z := 1024.

Definition float : Type := spec_float.

Definition zero : float := S754_zero false.
(** [1.0] is [2^52 * 2^-52]. *)
Definition one : float := S754_finite false 4503599627370496 (-52).

Definition is_nan (x : float) : bool :=
  match x with S754_nan => true | _ => false end.

Definition is_finite (x : float) : bool :=
  match x with S754_zero _ | S754_finite _ _ _ => true | _ => false end.


Definition add : float -> float -> float := SFadd prec emax.
Definition sub : float -> float -> float := SFsub prec emax.
Definition mul : float -> float -> float := SFmul prec emax.
Definition div : float -> float -> float := SFdiv prec emax.
Definition leb : float -> float -> bool := SFleb.
Definition ltb : float -> float -> bool := SFltb.

(** [np.maximum] and [np.minimum]: a NaN operand gives NaN. *)
Definition maximum (x y : float) : float :=
  match x, y with
  | S754_nan, _ | _, S754_nan => S754_nan
  | _, _ => if ltb x y then y else x
  end.

Definition minimum (x y : float) : float :=
  match x, y with
  | S754_nan, _ | _, S754_nan => S754_nan
  | _, _ => if ltb y x then y else x
  end.

(** [np.clip(x, lo, hi)] is [np.minimum(np.maximum(x, lo), hi)]. *)
Definition clip (x lo hi : float) : float := minimum (maximum x lo) hi.

(** [0 <= x <= 1]; false for NaN. *)
Definition in_unit (x : float) : Prop := leb zero x = true /\ leb x one = true.




(** Two-dimensional arrays and their element-wise arithmetic. *)
Definition array : Type := list (list float).

Definition arr_add (a b : array) : array := map2 (map2 add) a b.
Definition arr_mul (a b : array) : array := map2 (map2 mul) a b.
Definition arr_scale (c : float) (a : array) : array := map (map (mul c)) a.
Definition arr_rsub (best : list float) (a : array) : array :=
  map (fun r => map2 sub best r) a.
Definition np_clip (a : array) (lo hi : float) : array :=
  map (map (fun x => clip x lo hi)) a.

(** [pop + pressure * noise], for the array [noise] that Inflow draws. *)
Definition inflow_with (pop : array) (pressure : float) (noise : array) : array :=
  arr_add pop (arr_scale pressure noise).

(** [pop + pressure * (best - pop) * r], for the array [r] that Outflow
    draws. *)
Definition outflow_with (pop : array) (best : list float) (pressure : float)
    (r : array) : array :=
  arr_add pop (arr_mul (arr_scale pressure (arr_rsub best pop)) r).

Definition all_finite (a : array) : Prop :=
  Forall (Forall (fun x => is_finite x = true)) a.

Definition all_in_unit (a : array) : Prop := Forall (Forall in_unit) a.



(** The scheduler.  [iteration / max_iter] is Python's true division of two
    integers: the quotient rounded once, [ZeroDivisionError] for a zero
    divisor, [OverflowError] when the quotient is too large for a float. *)
Inductive error : Type := ZeroDivisionError | OverflowError.

Inductive result : Type :=
| Value (x : float)
| Raise (e : error).

(** An integer operand, as the exact mantissa of exponent 0. *)
Definition of_int (z : Z) : float :=
  match z with
  | Z0 => S754_zero false
  | Zpos p => S754_finite false p 0
  | Zneg p => S754_finite true p 0
  end.

Definition truediv (a b : Z) : result :=
  if b =? 0 then Raise ZeroDivisionError
  else match div (of_int a) (of_int b) with
       | S754_infinity _ => Raise OverflowError
       | q => Value q
       end.

(** [1 - (iteration / max_iter)] *)
Definition update_pressure (iteration max_iter : Z) : result :=
  match truediv iteration max_iter with
  | Value q => Value (sub one q)
  | Raise e => Raise e
  end.







End B64.

(* ------------------------------------------------------------------ *)
(** * Properties *)

(** ** Comparison of floating-point values *)

Lemma Qlt_bool_iff (a b : Q) : Qlt_bool a b = true <-> a < b.
Proof.
  unfold Qlt_bool. rewrite negb_true_iff, <- not_true_iff_false, Qle_bool_iff.
  split; [apply Qnot_le_lt | apply Qlt_not_le].
Qed.

Lemma Qlt_bool_false_iff (a b : Q) : Qlt_bool a b = false <-> b <= a.
Proof.
  unfold Qlt_bool. rewrite negb_false_iff. apply Qle_bool_iff.
Qed.

Ltac float_cases :=
  repeat match goal with
         | x : float |- _ => destruct x as [?|[|]|]
         end;
  cbn [leb ltb eqb negb] in *;
  try discriminate; try reflexivity;
  repeat match goal with
         | H : Qle_bool _ _ = true |- _ => apply Qle_bool_iff in H
         | H : Qlt_bool _ _ = true |- _ => apply Qlt_bool_iff in H
         | H : Qlt_bool _ _ = false |- _ => apply Qlt_bool_false_iff in H
         | H : Qeq_bool _ _ = true |- _ => apply Qeq_bool_iff in H
         end.

Lemma ltb_irrefl (x : float) : ltb x x = false.
Proof.
  float_cases. apply Qlt_bool_false_iff. lra.
Qed.

Lemma leb_trans (x y z : float) :
  leb x y = true -> leb y z = true -> leb x z = true.
Proof.
  intros H1 H2. float_cases. apply Qle_bool_iff. lra.
Qed.

Lemma ltb_leb_trans (x y z : float) :
  ltb x y = true -> leb y z = true -> ltb x z = true.
Proof.
  intros H1 H2. float_cases. apply Qlt_bool_iff. lra.
Qed.

Lemma ltb_not_leb (x y : float) : ltb x y = true -> leb y x = false.
Proof.
  intros H. float_cases.
  apply not_true_iff_false. rewrite Qle_bool_iff. lra.
Qed.

Lemma leb_nan_r (x : float) : leb x NaN = false.
Proof. destruct x as [?|[|]|]; reflexivity. Qed.

(** ** The dominance relation *)

Lemma dominates_irrefl (a : objective_vector) : dominates a a = false.
Proof.
  unfold dominates. apply andb_false_iff. right.
  induction a as [|x a IH]; [reflexivity|].
  cbn [combine existsb fst snd]. now rewrite ltb_irrefl, IH.
Qed.

Lemma all_le_any_lt_absurd (a b : objective_vector) :
  existsb (fun p => ltb (fst p) (snd p)) (combine a b) = true ->
  forallb (fun p => leb (fst p) (snd p)) (combine b a) = true -> False.
Proof.
  revert b. induction a as [|x a IH]; intros [|y b];
    cbn [combine existsb forallb fst snd];
    try discriminate.
  intros Hex Hall. apply andb_true_iff in Hall as [Hyx Hall].
  apply orb_true_iff in Hex as [Hxy|Hex].
  - apply ltb_not_leb in Hxy. congruence.
  - exact (IH b Hex Hall).
Qed.

Lemma dominates_asym (a b : objective_vector) :
  dominates a b = true -> dominates b a = false.
Proof.
  unfold dominates. intros H. apply andb_true_iff in H as [_ Hex].
  apply andb_false_iff. left. apply not_true_iff_false. intros Hall.
  exact (all_le_any_lt_absurd a b Hex Hall).
Qed.

Lemma all_le_trans (a b c : objective_vector) :
  length a = length b -> length b = length c ->
  forallb (fun p => leb (fst p) (snd p)) (combine a b) = true ->
  forallb (fun p => leb (fst p) (snd p)) (combine b c) = true ->
  forallb (fun p => leb (fst p) (snd p)) (combine a c) = true.
Proof.
  revert b c. induction a as [|x a IH]; intros [|y b] [|z c];
    cbn [length combine forallb fst snd]; try discriminate; auto.
  intros Hab Hbc H1 H2.
  apply andb_true_iff in H1 as [Hxy H1]. apply andb_true_iff in H2 as [Hyz H2].
  apply andb_true_iff. split.
  - exact (leb_trans x y z Hxy Hyz).
  - apply (IH b c); auto.
Qed.

Lemma any_lt_trans (a b c : objective_vector) :
  length a = length b -> length b = length c ->
  existsb (fun p => ltb (fst p) (snd p)) (combine a b) = true ->
  forallb (fun p => leb (fst p) (snd p)) (combine b c) = true ->
  existsb (fun p => ltb (fst p) (snd p)) (combine a c) = true.
Proof.
  revert b c. induction a as [|x a IH]; intros [|y b] [|z c];
    cbn [length combine forallb existsb fst snd]; try discriminate; auto.
  intros Hab Hbc H1 H2.
  apply andb_true_iff in H2 as [Hyz H2].
  apply orb_true_iff. apply orb_true_iff in H1 as [Hxy|H1].
  - left. exact (ltb_leb_trans x y z Hxy Hyz).
  - right. apply (IH b c); auto.
Qed.

Lemma dominates_trans (a b c : objective_vector) :
  length a = length b -> length b = length c ->
  dominates a b = true -> dominates b c = true -> dominates a c = true.
Proof.
  unfold dominates. intros Hab Hbc H1 H2.
  apply andb_true_iff in H1 as [Hall1 Hex1]. apply andb_true_iff in H2 as [Hall2 _].
  apply andb_true_iff. split.
  - exact (all_le_trans a b c Hab Hbc Hall1 Hall2).
  - exact (any_lt_trans a b c Hab Hbc Hex1 Hall2).
Qed.

(** The characterisation the specification gives: [a[k] <= b[k]] for every
    objective [k] and [a[k] < b[k]] for at least one. *)
Lemma dominates_spec (a b : objective_vector) :
  length a = length b ->
  dominates a b = true <->
  (forall k, (k < length a)%nat -> leb (nth k a NaN) (nth k b NaN) = true) /\
  (exists k, (k < length a)%nat /\ ltb (nth k a NaN) (nth k b NaN) = true).
Proof.
  unfold dominates. rewrite andb_true_iff. revert b.
  induction a as [|x a IH]; intros [|y b]; cbn [length]; try discriminate.
  - intros _. cbn. split.
    + intros [_ H]. discriminate.
    + intros [_ [k [Hk _]]]. lia.
  - intros Hlen. injection Hlen as Hlen. specialize (IH b Hlen).
    cbn [combine forallb existsb fst snd]. rewrite andb_true_iff, orb_true_iff.
    split.
    + intros [[Hxy Hall] Hex]. split.
      * intros [|k] Hk; cbn [nth]; [exact Hxy|].
        destruct (forallb_forall (fun p => leb (fst p) (snd p)) (combine a b)) as [Hf _].
        assert (Hin : In (nth k a NaN, nth k b NaN) (combine a b)).
        { rewrite <- (combine_nth a b k NaN NaN Hlen). apply nth_In.
          rewrite length_combine. lia. }
        exact (Hf Hall _ Hin).
      * destruct Hex as [Hlt|Hex].
        -- exists 0%nat. split; [lia | exact Hlt].
        -- destruct (existsb_exists (fun p => ltb (fst p) (snd p)) (combine a b))
             as [He _].
           destruct (He Hex) as [[u v] [Hin Huv]].
           destruct (In_nth _ _ (NaN, NaN) Hin) as [k [Hk Hnth]].
           rewrite length_combine in Hk.
           rewrite (combine_nth a b k NaN NaN Hlen) in Hnth.
           injection Hnth as Hu Hv. exists (S k). cbn [nth fst snd] in *.
           split; [lia | now rewrite Hu, Hv].
    + intros [Hall [k [Hk Hlt]]]. split; [split|].
      * exact (Hall 0%nat ltac:(lia)).
      * apply forallb_forall. intros [u v] Hin.
        destruct (In_nth _ _ (NaN, NaN) Hin) as [j [Hj Hnth]].
        rewrite length_combine in Hj.
        rewrite (combine_nth a b j NaN NaN Hlen) in Hnth.
        injection Hnth as Hu Hv. cbn [fst snd]. subst u v.
        exact (Hall (S j) ltac:(lia)).
      * destruct k as [|k]; [left; exact Hlt | right].
        apply existsb_exists. exists (nth k a NaN, nth k b NaN). split.
        -- rewrite <- (combine_nth a b k NaN NaN Hlen). apply nth_In.
           rewrite length_combine. lia.
        -- exact Hlt.
Qed.

(** ** One pass of the ranker *)

Lemma existsb_eqb_In (i : nat) (l : list nat) :
  existsb (Nat.eqb i) l = true <-> In i l.
Proof.
  rewrite existsb_exists. split.
  - intros [j [Hin Heq]]. apply Nat.eqb_eq in Heq. now subst.
  - intros Hin. exists i. split; [assumption | apply Nat.eqb_refl].
Qed.

Lemma is_dominated_false (objectives : list objective_vector)
    (remaining : list nat) (i : nat) :
  is_dominated objectives remaining i = false <->
  forall j, In j remaining -> dominates (row objectives j) (row objectives i) = false.
Proof.
  unfold is_dominated. rewrite <- not_true_iff_false, existsb_exists. split.
  - intros Hno j Hj. destruct (Nat.eq_dec i j) as [->|Hne].
    + apply dominates_irrefl.
    + apply not_true_iff_false. intros Hd. apply Hno. exists j. split; [assumption|].
      apply andb_true_iff. split; [|assumption].
      apply negb_true_iff. now apply Nat.eqb_neq.
  - intros Hall [j [Hj Hd]]. apply andb_true_iff in Hd as [_ Hd].
    rewrite (Hall j Hj) in Hd. discriminate.
Qed.

Lemma in_next_front (objectives : list objective_vector)
    (remaining : list nat) (i : nat) :
  In i (next_front objectives remaining) <->
  In i remaining /\ is_dominated objectives remaining i = false.
Proof.
  unfold next_front. rewrite filter_In, negb_true_iff. reflexivity.
Qed.

(** What is left after a pass is exactly the dominated indices. *)
Lemma remove_next_front (objectives : list objective_vector) (remaining : list nat) :
  remove_front remaining (next_front objectives remaining)
  = filter (is_dominated objectives remaining) remaining.
Proof.
  unfold remove_front. apply filter_ext_in. intros i Hi.
  destruct (is_dominated objectives remaining i) eqn:Hd.
  - apply negb_true_iff, not_true_iff_false. rewrite existsb_eqb_In, in_next_front.
    intros [_ H]. congruence.
  - apply negb_false_iff. rewrite existsb_eqb_In, in_next_front. now split.
Qed.

Lemma filter_split_perm {A} (p : A -> bool) (l : list A) :
  Permutation (filter p l ++ filter (fun x => negb (p x)) l) l.
Proof.
  induction l as [|x l IH]; [constructor|].
  cbn [filter]. destruct (p x); cbn [negb app].
  - now constructor.
  - apply Permutation_sym, Permutation_cons_app, Permutation_sym, IH.
Qed.

Lemma pass_perm (objectives : list objective_vector) (remaining : list nat) :
  Permutation
    (next_front objectives remaining
       ++ remove_front remaining (next_front objectives remaining))
    remaining.
Proof.
  rewrite remove_next_front. unfold next_front.
  eapply Permutation_trans; [|apply (filter_split_perm
    (fun i => negb (is_dominated objectives remaining i)))].
  apply Permutation_app_head.
  erewrite filter_ext; [reflexivity|].
  intros i. cbn. now rewrite negb_involutive.
Qed.

Lemma filter_drops_one {A} (q : A -> bool) (l : list A) (x : A) :
  In x l -> q x = false -> (length (filter q l) < length l)%nat.
Proof.
  induction l as [|y l IH]; [contradiction|].
  intros [->|Hin] Hq; cbn [filter length].
  - rewrite Hq. pose proof (filter_length_le q l). lia.
  - specialize (IH Hin Hq). destruct (q y); cbn [length]; lia.
Qed.

Lemma pass_shrinks (objectives : list objective_vector) (remaining : list nat) :
  next_front objectives remaining <> [] ->
  (length (remove_front remaining (next_front objectives remaining))
   < length remaining)%nat.
Proof.
  intros Hne. destruct (next_front objectives remaining) as [|i fr] eqn:Hfr;
    [contradiction|].
  assert (Hi : In i (next_front objectives remaining)) by (rewrite Hfr; now left).
  rewrite <- Hfr, remove_next_front. apply in_next_front in Hi as [Hin Hd].
  exact (filter_drops_one _ _ i Hin Hd).
Qed.

(** ** The ranking loop *)

Lemma pareto_loop_perm (objectives : list objective_vector) (fuel : nat) :
  forall remaining fronts,
    pareto_loop fuel objectives remaining = Some fronts ->
    Permutation (concat fronts) remaining.
Proof.
  induction fuel as [|fuel IH]; intros [|i rem] fronts H; cbn [pareto_loop] in H;
    try discriminate.
  - injection H as <-. constructor.
  - injection H as <-. constructor.
  - destruct (pareto_loop fuel objectives _) as [rest|] eqn:Hrest; [|discriminate].
    injection H as <-. cbn [concat].
    eapply Permutation_trans; [|apply pass_perm].
    apply Permutation_app_head. exact (IH _ _ Hrest).
Qed.

Lemma pareto_loop_more_fuel (objectives : list objective_vector) (fuel : nat) :
  forall remaining fronts fuel',
    pareto_loop fuel objectives remaining = Some fronts ->
    (fuel <= fuel')%nat ->
    pareto_loop fuel' objectives remaining = Some fronts.
Proof.
  induction fuel as [|fuel IH]; intros [|i rem] fronts fuel' H Hle;
    cbn [pareto_loop] in H; try discriminate.
  - destruct fuel'; exact H.
  - destruct fuel'; exact H.
  - destruct fuel' as [|fuel']; [lia|]. cbn [pareto_loop].
    destruct (pareto_loop fuel objectives _) as [rest|] eqn:Hrest; [|discriminate].
    rewrite (IH _ _ fuel' Hrest ltac:(lia)). exact H.
Qed.

(** The first front is the set of indices no remaining index dominates. *)
Lemma pareto_loop_head (objectives : list objective_vector) (fuel : nat)
    (remaining : list nat) (fr : front) (fronts : list front) :
  pareto_loop fuel objectives remaining = Some (fr :: fronts) ->
  fr = next_front objectives remaining.
Proof.
  destruct fuel, remaining; cbn [pareto_loop]; try discriminate.
  destruct (pareto_loop fuel objectives _); cbn [option_map]; [|discriminate].
  intros H. now injection H as -> _.
Qed.

Section Ranker.

(** A two-dimensional array: [N] rows of [M] objective values each. *)
Variable objectives : list objective_vector.
Variable M : nat.
Hypothesis rectangular : Forall (fun r => length r = M) objectives.

Lemma row_length (i : nat) :
  (i < length objectives)%nat -> length (row objectives i) = M.
Proof.
  intros Hi. unfold row.
  exact (proj1 (Forall_forall _ _) rectangular _ (nth_In _ _ Hi)).
Qed.

(** The dominance order has a minimal element in every non-empty set of
    rows. *)
Lemma exists_minimal (l : list nat) :
  l <> [] -> valid_indices objectives l ->
  exists m, In m l /\
    forall j, In j l -> dominates (row objectives j) (row objectives m) = false.
Proof.
  induction l as [|x l IH]; [congruence|].
  intros _ Hv. inversion Hv as [|? ? Hx Hl]; subst.
  destruct l as [|y l].
  - exists x. split; [now left|]. intros j [<-|[]]. apply dominates_irrefl.
  - destruct (IH ltac:(discriminate) Hl) as [m [Hm Hmin]].
    destruct (dominates (row objectives x) (row objectives m)) eqn:Hxm.
    + exists x. split; [now left|]. intros j [<-|Hj].
      * apply dominates_irrefl.
      * apply not_true_iff_false. intros Hjx.
        assert (Hjm : dominates (row objectives j) (row objectives m) = true).
        { apply (dominates_trans _ (row objectives x)); auto.
          - rewrite !row_length; auto.
            exact (proj1 (Forall_forall _ _) Hl _ Hj).
          - rewrite !row_length; auto.
            exact (proj1 (Forall_forall _ _) Hl _ Hm). }
        rewrite (Hmin j Hj) in Hjm. discriminate.
    + exists m. split; [now right|]. intros j [<-|Hj]; auto.
Qed.

Lemma next_front_nonempty (remaining : list nat) :
  remaining <> [] -> valid_indices objectives remaining ->
  next_front objectives remaining <> [].
Proof.
  intros Hne Hv. destruct (exists_minimal remaining Hne Hv) as [m [Hm Hmin]].
  assert (Hin : In m (next_front objectives remaining)).
  { apply in_next_front. split; [assumption|]. now apply is_dominated_false. }
  intros Heq. rewrite Heq in Hin. contradiction.
Qed.

Lemma remove_front_valid (remaining : list nat) (fr : front) :
  valid_indices objectives remaining ->
  valid_indices objectives (remove_front remaining fr).
Proof.
  unfold valid_indices, remove_front. rewrite !Forall_forall. intros H i Hi.
  apply filter_In in Hi as [Hi _]. auto.
Qed.

(** With at least [length remaining] units of fuel the loop finishes, and
    every front it emits is non-empty. *)
Lemma pareto_loop_terminates (fuel : nat) :
  forall remaining,
    (length remaining <= fuel)%nat -> valid_indices objectives remaining ->
    exists fronts,
      pareto_loop fuel objectives remaining = Some fronts /\
      Forall (fun fr => fr <> []) fronts.
Proof.
  induction fuel as [|fuel IH]; intros [|i rem] Hlen Hv; cbn [pareto_loop].
  - exists []. split; [reflexivity | constructor].
  - cbn [length] in Hlen. lia.
  - exists []. split; [reflexivity | constructor].
  - set (remaining := i :: rem) in *.
    assert (Hne : next_front objectives remaining <> [])
      by (apply next_front_nonempty; [discriminate | assumption]).
    pose proof (pass_shrinks objectives remaining Hne) as Hshr.
    destruct (IH (remove_front remaining (next_front objectives remaining)))
      as [rest [Hrest Hall]].
    + lia.
    + now apply remove_front_valid.
    + exists (next_front objectives remaining :: rest). rewrite Hrest.
      split; [reflexivity | now constructor].
Qed.

Lemma seq_valid : valid_indices objectives (seq 0 (length objectives)).
Proof. apply Forall_forall. intros i Hi. apply in_seq in Hi. lia. Qed.

Lemma pareto_sort_returns (feasibles : list bool) :
  exists fronts,
    pareto_sort objectives feasibles = Ok fronts /\
    pareto_loop (length objectives) objectives (seq 0 (length objectives))
      = Some fronts /\
    Forall (fun fr => fr <> []) fronts.
Proof.
  destruct (pareto_loop_terminates (length objectives) (seq 0 (length objectives)))
    as [fronts [Hloop Hall]].
  - now rewrite length_seq.
  - apply seq_valid.
  - exists fronts. unfold pareto_sort. rewrite Hloop. auto.
Qed.

End Ranker.

(** ** Results of [omap] and [getitem] *)

Lemma getitem_ok {A} (xs : list A) (i : nat) (x : A) :
  getitem xs i = Ok x <-> nth_error xs i = Some x.
Proof.
  unfold getitem. destruct (nth_error xs i); split; intros H;
    try discriminate; now injection H as ->.
Qed.

Lemma omap_ok {A B} (f : A -> outcome B) (xs : list A) :
  (forall x, In x xs -> exists y, f x = Ok y) ->
  exists ys, omap f xs = Ok ys.
Proof.
  induction xs as [|x xs IH]; intros Hf; cbn [omap].
  - now exists [].
  - destruct (Hf x (or_introl eq_refl)) as [y Hy].
    destruct IH as [ys Hys]; [intros z Hz; apply Hf; now right|].
    exists (y :: ys). rewrite Hy. cbn [obind]. now rewrite Hys.
Qed.

Lemma omap_length {A B} (f : A -> outcome B) (xs : list A) (ys : list B) :
  omap f xs = Ok ys -> length ys = length xs.
Proof.
  revert ys. induction xs as [|x xs IH]; intros ys; cbn [omap].
  - intros H. now injection H as <-.
  - destruct (f x) as [y| |]; cbn [obind]; try discriminate.
    destruct (omap f xs) as [ys'| |]; cbn [obind]; try discriminate.
    intros H. injection H as <-. cbn [length]. now rewrite (IH ys' eq_refl).
Qed.

Lemma omap_nth {A B} (f : A -> outcome B) (xs : list A) (ys : list B) :
  omap f xs = Ok ys ->
  forall i x, nth_error xs i = Some x ->
    exists y, nth_error ys i = Some y /\ f x = Ok y.
Proof.
  revert ys. induction xs as [|x xs IH]; intros ys; cbn [omap].
  - intros _ [|i] z H; discriminate.
  - destruct (f x) as [y| |] eqn:Hy; cbn [obind]; try discriminate.
    destruct (omap f xs) as [ys'| |]; cbn [obind]; try discriminate.
    intros H. injection H as <-. intros [|i] z Hz; cbn [nth_error] in *.
    + injection Hz as <-. now exists y.
    + exact (IH ys' eq_refl i z Hz).
Qed.

Lemma omap_raise {A B} (f : A -> outcome B) (x : A) (xs : list A) (e : exn) :
  f x = Raise e -> omap f (x :: xs) = Raise e.
Proof. intros H. cbn [omap]. now rewrite H. Qed.

(** ** The fitness evaluator *)

Lemma py_max_zero_nonneg (v : float) : nonneg (py_max zero v).
Proof.
  unfold nonneg, py_max, zero. destruct (ltb (Fin 0) v) eqn:H; [|reflexivity].
  float_cases. apply Qle_bool_iff. lra.
Qed.

Lemma add_nonneg (u v : float) : nonneg u -> nonneg v -> nonneg (add u v).
Proof.
  unfold nonneg, zero. intros Hu Hv. float_cases. cbn [add leb].
  apply Qle_bool_iff. lra.
Qed.

Lemma nonneg_cases (v : float) :
  nonneg v -> eqb v zero = true \/ ltb zero v = true.
Proof.
  unfold nonneg, zero. intros Hv. float_cases; [|now right].
  destruct (Qeq_bool q 0) eqn:Heq; [now left | right].
  apply Qeq_bool_neq in Heq. apply Qlt_bool_iff.
  destruct (Qlt_le_dec 0 q) as [Hlt|Hle]; [assumption|].
  exfalso. apply Heq. lra.
Qed.

Lemma positive_not_zero (v : float) : ltb zero v = true -> eqb v zero = false.
Proof.
  unfold zero. intros Hv. float_cases.
  apply not_true_iff_false. rewrite Qeq_bool_iff. lra.
Qed.

Lemma penalty_nonneg (ind : individual) (pen : float) :
  penalty ind = Ok pen -> nonneg pen.
Proof.
  unfold penalty.
  destruct ind as [|x0 [|x1 [|x2 rest]]]; cbn [getitem nth_error obind];
    try discriminate.
  intros H. injection H as <-. unfold py_sum. cbn [fold_left].
  apply add_nonneg; [apply add_nonneg|]; try apply py_max_zero_nonneg.
  reflexivity.
Qed.

(** The three calls made for one individual succeed as soon as it has three
    coordinates, and the branch on [pen == 0] decides the returned pair. *)
Lemma evaluate_individual_spec (ind : individual) :
  (3 <= length ind)%nat ->
  exists f1 f2 pen,
    objective_1 ind = Ok f1 /\ objective_2 ind = Ok f2 /\ penalty ind = Ok pen /\
    evaluate_individual ind
    = Ok (if eqb pen zero then ([f1; f2], true)
          else ([add f1 (mul (Fin 1000) pen); add f2 (mul (Fin 1000) pen)], false)).
Proof.
  destruct ind as [|x0 [|x1 [|x2 rest]]]; cbn [length]; try lia. intros _.
  eexists _, _, _. unfold evaluate_individual, objective_1, objective_2, penalty.
  cbn [getitem nth_error obind].
  repeat split.
  match goal with |- context [eqb ?p zero] => destruct (eqb p zero) end; reflexivity.
Qed.

Lemma evaluate_individual_short (ind : individual) :
  (length ind < 3)%nat -> evaluate_individual ind = Raise IndexError.
Proof.
  destruct ind as [|x0 [|x1 [|x2 rest]]]; cbn [length]; try lia; reflexivity.
Qed.

Lemma evaluate_individual_width (ind : individual) (v : objective_vector) (b : bool) :
  evaluate_individual ind = Ok (v, b) -> length v = 2%nat.
Proof.
  unfold evaluate_individual.
  destruct (objective_1 ind) as [f1| |]; cbn [obind]; try discriminate.
  destruct (objective_2 ind) as [f2| |]; cbn [obind]; try discriminate.
  destruct (penalty ind) as [pen| |]; cbn [obind]; try discriminate.
  destruct (eqb pen zero); intros H; injection H as <- _; reflexivity.
Qed.

Lemma evaluate_population_ok (pop : population) :
  Forall (fun ind => (3 <= length ind)%nat) pop ->
  exists rows,
    omap evaluate_individual pop = Ok rows /\
    evaluate_population pop = Ok (map fst rows, map snd rows).
Proof.
  intros Hdim.
  destruct (omap_ok evaluate_individual pop) as [rows Hrows].
  - intros ind Hin.
    destruct (evaluate_individual_spec ind) as (f1 & f2 & pen & _ & _ & _ & Hev).
    + exact (proj1 (Forall_forall _ _) Hdim ind Hin).
    + eexists. exact Hev.
  - exists rows. split; [assumption|]. unfold evaluate_population. now rewrite Hrows.
Qed.

(** The array of objective vectors has one row of two values per individual. *)
Lemma evaluate_population_shape (pop : population)
    (objs : list objective_vector) (feas : list bool) :
  evaluate_population pop = Ok (objs, feas) ->
  length objs = length pop /\ length feas = length pop /\
  Forall (fun r => length r = 2%nat) objs.
Proof.
  unfold evaluate_population.
  destruct (omap evaluate_individual pop) as [rows| |] eqn:Hrows; cbn [obind];
    try discriminate.
  intros H. injection H as <- <-. rewrite !length_map.
  pose proof (omap_length _ _ _ Hrows) as Hlen. repeat split; try assumption.
  apply Forall_forall. intros r Hr. apply in_map_iff in Hr as [[v b] [<- Hin]].
  destruct (In_nth_error _ _ Hin) as [i Hi].
  assert (Hlt : (i < length pop)%nat).
  { rewrite <- Hlen. apply nth_error_Some. congruence. }
  destruct (nth_error pop i) as [ind|] eqn:Hind;
    [|apply nth_error_None in Hind; lia].
  destruct (omap_nth _ _ _ Hrows i ind Hind) as [y [Hy Hev]].
  rewrite Hi in Hy. injection Hy as <-.
  exact (evaluate_individual_width ind v b Hev).
Qed.

(** ** Arrays: shapes and finiteness *)

Lemma map2_length {A B C} (f : A -> B -> C) (xs : list A) (ys : list B) :
  length xs = length ys -> length (map2 f xs ys) = length xs.
Proof.
  intros H. unfold map2. rewrite length_map, length_combine. lia.
Qed.

Lemma map2_Forall {A B C} (f : A -> B -> C) (P : A -> Prop) (Q : B -> Prop)
    (R : C -> Prop) (xs : list A) (ys : list B) :
  (forall x y, P x -> Q y -> R (f x y)) ->
  Forall P xs -> Forall Q ys -> Forall R (map2 f xs ys).
Proof.
  intros Hf HP. revert ys. induction HP as [|x xs Hx HP IH]; intros ys HQ.
  - constructor.
  - destruct HQ as [|y ys Hy HQ]; [constructor|].
    unfold map2. cbn [combine map fst snd]. constructor; [now apply Hf|].
    exact (IH ys HQ).
Qed.

Lemma map_Forall {A B} (f : A -> B) (P : A -> Prop) (R : B -> Prop) (xs : list A) :
  (forall x, P x -> R (f x)) -> Forall P xs -> Forall R (map f xs).
Proof.
  intros Hf HP. induction HP; cbn [map]; constructor; auto.
Qed.

Lemma add_finite (x y : float) :
  is_finite x = true -> is_finite y = true -> is_finite (add x y) = true.
Proof. destruct x, y; cbn; congruence. Qed.

Lemma mul_finite (x y : float) :
  is_finite x = true -> is_finite y = true -> is_finite (mul x y) = true.
Proof. destruct x, y; cbn; congruence. Qed.

Lemma sub_finite (x y : float) :
  is_finite x = true -> is_finite y = true -> is_finite (sub x y) = true.
Proof. destruct x, y; cbn; congruence. Qed.

(** Clamping a real number, or an infinity, puts it in [[0, 1]]. *)
Lemma clip_in_unit (x : float) : is_nan x = false -> in_unit (clip x zero one).
Proof.
  unfold clip, zero, one. destruct x as [q|[|]|]; cbn [is_nan]; try discriminate;
    intros _.
  - cbn [maximum ltb]. destruct (Qlt_bool q 0) eqn:H0.
    + cbn. lra.
    + cbn [minimum ltb]. destruct (Qlt_bool 1 q) eqn:H1; cbn [in_unit].
      * lra.
      * apply Qlt_bool_false_iff in H0, H1. lra.
  - cbn. lra.
  - cbn. lra.
Qed.

Lemma finite_not_nan (x : float) : is_finite x = true -> is_nan x = false.
Proof. destruct x; cbn; congruence. Qed.

Lemma in_unit_finite (x : float) : in_unit x -> is_finite x = true.
Proof. destruct x; cbn; tauto. Qed.

Lemma np_clip_in_unit (a : population) :
  all_finite a -> all_in_unit (np_clip a zero one).
Proof.
  unfold all_finite, all_in_unit, np_clip. intros H.
  eapply map_Forall; [|exact H]. intros r Hr.
  eapply map_Forall; [|exact Hr]. intros x Hx.
  apply clip_in_unit, finite_not_nan, Hx.
Qed.

Lemma all_in_unit_finite (a : population) : all_in_unit a -> all_finite a.
Proof.
  unfold all_finite, all_in_unit. intros H.
  eapply Forall_impl; [|exact H]. intros r Hr.
  eapply Forall_impl; [|exact Hr]. apply in_unit_finite.
Qed.

Lemma inflow_with_finite (pop noise : population) (pressure : float) :
  all_finite pop -> is_finite pressure = true -> all_finite noise ->
  all_finite (inflow_with pop pressure noise).
Proof.
  unfold all_finite, inflow_with, arr_add, arr_scale. intros Hp Hpr Hn.
  eapply map2_Forall; [|exact Hp|].
  - intros r r' Hr Hr'. eapply map2_Forall; [|exact Hr|exact Hr'].
    intros x y. apply add_finite.
  - eapply map_Forall; [|exact Hn]. intros r Hr.
    eapply map_Forall; [|exact Hr]. intros x. now apply mul_finite.
Qed.

Lemma outflow_with_finite (pop r : population) (best : individual) (pressure : float) :
  all_finite pop -> Forall (fun x => is_finite x = true) best ->
  is_finite pressure = true -> all_finite r ->
  all_finite (outflow_with pop best pressure r).
Proof.
  unfold all_finite, outflow_with, arr_add, arr_mul, arr_scale, arr_rsub.
  intros Hp Hb Hpr Hr.
  eapply map2_Forall; [|exact Hp|].
  - intros u v Hu Hv. eapply map2_Forall; [|exact Hu|exact Hv].
    intros x y. apply add_finite.
  - eapply map2_Forall; [| |exact Hr].
    + intros u v Hu Hv. eapply map2_Forall; [|exact Hu|exact Hv].
      intros x y. apply mul_finite.
    + rewrite map_map. eapply map_Forall; [|exact Hp]. intros u Hu.
      eapply map_Forall; [intros x Hx; apply mul_finite; [exact Hpr|exact Hx]|].
      eapply map2_Forall; [|exact Hb|exact Hu]. intros x y. apply sub_finite.
Qed.

(** ** The random generator *)

Lemma sample_row_spec (d : nat) (g : rng) :
  length (fst (sample_row d g)) = d /\
  Forall (fun x => is_finite x = true) (fst (sample_row d g)).
Proof.
  revert g. induction d as [|d IH]; intros g; cbn [sample_row].
  - split; [reflexivity | constructor].
  - unfold random_sample.
    destruct (sample_row d _) as [us g2] eqn:Hrow.
    specialize (IH (mk_rng (words g) (S (pos g)))). rewrite Hrow in IH.
    cbn [fst] in *. destruct IH as [Hlen Hfin].
    split; [cbn [length]; now rewrite Hlen | now constructor].
Qed.

Lemma sample_rows_spec (n d : nat) (g : rng) :
  has_shape n d (fst (sample_rows n d g)) /\ all_finite (fst (sample_rows n d g)).
Proof.
  unfold has_shape, all_finite. revert g.
  induction n as [|n IH]; intros g; cbn [sample_rows].
  - repeat split; constructor.
  - destruct (sample_row d g) as [r g1] eqn:Hr.
    destruct (sample_rows n d g1) as [rs g2] eqn:Hrs.
    pose proof (sample_row_spec d g) as [Hlen Hfin]. rewrite Hr in Hlen, Hfin.
    specialize (IH g1). rewrite Hrs in IH. cbn [fst] in *.
    destruct IH as [[Hn Hd] Hf].
    repeat split; [cbn [length]; now rewrite Hn | now constructor | now constructor].
Qed.

Lemma np_rand_ok (sh : nat * nat) (g : rng) :
  exists r g',
    np_rand sh g = Ok (r, g') /\ has_shape (fst sh) (snd sh) r /\ all_finite r.
Proof.
  unfold np_rand. pose proof (sample_rows_spec (fst sh) (snd sh) g) as H.
  destruct (sample_rows (fst sh) (snd sh) g) as [r g']. now exists r, g'.
Qed.

Lemma np_uniform_ok (low high : float) (sh : nat * nat) (g : rng) :
  is_finite low = true -> is_finite high = true ->
  exists u g',
    np_uniform low high sh g = Ok (u, g') /\
    has_shape (fst sh) (snd sh) u /\ all_finite u.
Proof.
  intros Hl Hh. unfold np_uniform, mbind, mret.
  destruct (np_rand_ok sh g) as (r & g' & Hr & [Hn Hd] & Hf). rewrite Hr.
  eexists _, g'. split; [reflexivity|]. split; [split|].
  - now rewrite length_map.
  - eapply map_Forall; [|exact Hd]. intros x Hx. now rewrite length_map.
  - eapply map_Forall; [|exact Hf]. intros x Hx.
    eapply map_Forall; [|exact Hx]. intros y Hy.
    apply add_finite; [assumption|]. apply mul_finite; [|assumption].
    now apply sub_finite.
Qed.

Lemma np_randint_ok (n : nat) (g : rng) :
  (0 < n)%nat -> exists k g', np_randint n g = Ok (k, g') /\ (k < n)%nat.
Proof.
  intros Hn. destruct n as [|n]; [lia|]. unfold np_randint.
  eexists _, _. split; [reflexivity|].
  pose proof (Z.mod_pos_bound (words g (pos g)) (Z.of_nat (S n)) ltac:(lia)). lia.
Qed.

(** ** Fronts as blocks of a partition *)

Lemma NoDup_app_disjoint {A} (l1 l2 : list A) (a : A) :
  NoDup (l1 ++ l2) -> In a l1 -> ~ In a l2.
Proof.
  induction l1 as [|x l1 IH]; [contradiction|].
  cbn [app]. intros Hnd [->|Hin] H2; inversion Hnd as [|? ? Hx Hrest]; subst.
  - apply Hx, in_or_app. now right.
  - exact (IH Hrest Hin H2).
Qed.

Lemma nth_in_concat {A} (ls : list (list A)) (k : nat) (x : A) :
  In x (nth k ls []) -> In x (concat ls).
Proof.
  intros Hin. destruct (Nat.lt_ge_cases k (length ls)) as [Hk|Hk].
  - apply in_concat. exists (nth k ls []). split; [now apply nth_In | assumption].
  - rewrite nth_overflow in Hin by assumption. contradiction.
Qed.

Lemma concat_block_unique {A} (ls : list (list A)) (x : A) :
  NoDup (concat ls) ->
  forall k k', In x (nth k ls []) -> In x (nth k' ls []) -> k = k'.
Proof.
  induction ls as [|l ls IH]; intros Hnd k k' Hk Hk'.
  - destruct k; contradiction.
  - cbn [concat] in Hnd.
    destruct k as [|k], k' as [|k']; cbn [nth] in Hk, Hk'.
    + reflexivity.
    + exfalso. exact (NoDup_app_disjoint _ _ x Hnd Hk (nth_in_concat ls k' x Hk')).
    + exfalso. exact (NoDup_app_disjoint _ _ x Hnd Hk' (nth_in_concat ls k x Hk)).
    + f_equal. apply IH; [exact (NoDup_app_remove_l _ _ Hnd) | assumption..].
Qed.

Lemma concat_block_exists {A} (ls : list (list A)) (x : A) :
  In x (concat ls) -> exists k, In x (nth k ls []).
Proof.
  intros Hin. apply in_concat in Hin as [l [Hl Hx]].
  destruct (In_nth ls l [] Hl) as [k [_ Hk]]. exists k. now rewrite Hk.
Qed.

(** The fronts of a rectangular array of [N] rows list every index below
    [N] once. *)
Lemma pareto_sort_perm (objectives : list objective_vector) (feasibles : list bool)
    (fronts : list front) :
  pareto_sort objectives feasibles = Ok fronts ->
  Permutation (concat fronts) (seq 0 (length objectives)).
Proof.
  unfold pareto_sort.
  destruct (pareto_loop _ objectives _) as [fs|] eqn:Hloop; [|discriminate].
  intros H. injection H as <-. exact (pareto_loop_perm _ _ _ _ Hloop).
Qed.

(* ------------------------------------------------------------------ *)
(** * Binary64 arithmetic *)

Section Binary64.

Local Open Scope Z_scope.

(** ** Comparison *)







(** ** The clamp *)





(** ** Rounding never gives NaN *)



Section Rounding.

Variables prec emax : Z.








End Rounding.

(** ** Magnitudes

    The number of binary digits of a mantissa is one more than its binary
    logarithm. *)



























(** ** Division of integers *)



(** ** The schedule checker *)








End Binary64.

(** ** The phase operators in binary64 *)






(* ------------------------------------------------------------------ *)
(** * Main results *)

(** C3.  The dominance relation, which holds of [a] and [b] exactly when
    [a[k] <= b[k]] for every objective [k] and [a[k] < b[k]] for at least one
    [k], is a strict partial order on objective vectors of one dimension: no
    vector dominates itself, two vectors never dominate each other, and
    dominance is transitive. *)
Theorem dominates_strict_partial_order (a b c : objective_vector) :
  length a = length b -> length b = length c ->
  (dominates a b = true <->
     (forall k, (k < length a)%nat -> leb (nth k a NaN) (nth k b NaN) = true) /\
     (exists k, (k < length a)%nat /\ ltb (nth k a NaN) (nth k b NaN) = true)) /\
  dominates a a = false /\
  (dominates a b = true -> dominates b a = false) /\
  (dominates a b = true -> dominates b c = true -> dominates a c = true).
Proof.
  intros Hab Hbc. split; [|split; [|split]].
  - exact (dominates_spec a b Hab).
  - exact (dominates_irrefl a).
  - exact (dominates_asym a b).
  - exact (dominates_trans a b c Hab Hbc).
Qed.

Lemma dominates_strict_partial_order_witness :
  dominates [Fin 1; Fin 2] [Fin 2; Fin 2] = true /\
  dominates [Fin 2; Fin 2] [Fin 2; Fin 3] = true /\
  dominates [Fin 1; Fin 2] [Fin 1; Fin 2] = false /\
  dominates [Fin 2; Fin 2] [Fin 1; Fin 2] = false /\
  dominates [Fin 1; Fin 2] [Fin 2; Fin 3] = true.
Proof.
  destruct (dominates_strict_partial_order
              [Fin 1; Fin 2] [Fin 2; Fin 2] [Fin 2; Fin 3] eq_refl eq_refl)
    as (_ & Hirr & Hasym & Htrans).
  assert (H1 : dominates [Fin 1; Fin 2] [Fin 2; Fin 2] = true) by reflexivity.
  assert (H2 : dominates [Fin 2; Fin 2] [Fin 2; Fin 3] = true) by reflexivity.
  repeat split; auto.
Defined.

(** C1.  For every evaluated population of size [N], [pareto_sort] returns
    fronts that partition the index set [{0..N-1}]: the fronts put end to end
    are a rearrangement of [0, ..., N-1], so no index is repeated, none is
    left out, and every index lies in exactly one front. *)
Theorem pareto_sort_partition (pop : population)
    (objs : list objective_vector) (feas : list bool) :
  evaluate_population pop = Ok (objs, feas) ->
  exists fronts,
    pareto_sort objs feas = Ok fronts /\
    Permutation (concat fronts) (seq 0 (length pop)) /\
    NoDup (concat fronts) /\
    (forall i, In i (concat fronts) <-> (i < length pop)%nat) /\
    (forall i, (i < length pop)%nat ->
       exists k, In i (nth k fronts []) /\
                 forall k', In i (nth k' fronts []) -> k' = k).
Proof.
  intros Hev. destruct (evaluate_population_shape pop objs feas Hev) as (Hn & _ & Hrect).
  destruct (pareto_sort_returns objs 2 Hrect feas) as (fronts & Hsort & _ & _).
  exists fronts. split; [exact Hsort|].
  pose proof (pareto_sort_perm objs feas fronts Hsort) as Hperm. rewrite Hn in Hperm.
  assert (Hnd : NoDup (concat fronts)).
  { apply (Permutation_NoDup (Permutation_sym Hperm)), seq_NoDup. }
  assert (Hmem : forall i, In i (concat fronts) <-> (i < length pop)%nat).
  { intros i. split.
    - intros Hi. apply (Permutation_in _ Hperm) in Hi. apply in_seq in Hi. lia.
    - intros Hi. apply (Permutation_in _ (Permutation_sym Hperm)), in_seq. lia. }
  repeat split; try assumption; try apply Hmem.
  intros i Hi. apply Hmem in Hi.
  destruct (concat_block_exists fronts i Hi) as [k Hk]. exists k. split; [assumption|].
  intros k' Hk'. exact (concat_block_unique fronts i Hnd k' k Hk' Hk).
Qed.

Lemma pareto_sort_partition_witness :
  exists fronts,
    pareto_sort [[Fin 3; Fin 2]; [Fin 1; Fin 6]; [Fin 2; Fin 3]; [Fin 3; Fin 2]]
      [true; true; true; true] = Ok fronts /\
    Permutation (concat fronts) [0; 1; 2; 3]%nat.
Proof.
  destruct (pareto_sort_partition
              [[Fin 1; Fin 1; Fin 1]; [Fin 0; Fin 0; Fin 1]; [Fin 1; Fin 0; Fin 1];
               [Fin 1; Fin 1; Fin 1]]
              [[Fin 3; Fin 2]; [Fin 1; Fin 6]; [Fin 2; Fin 3]; [Fin 3; Fin 2]]
              [true; true; true; true])
    as (fronts & Hsort & Hperm & _).
  - vm_compute. reflexivity.
  - exists fronts. split; assumption.
Defined.

Lemma pareto_loop_cons (objectives : list objective_vector) (fuel : nat)
    (remaining : list nat) (fronts : list front) :
  remaining <> [] ->
  pareto_loop fuel objectives remaining = Some fronts ->
  exists rest, fronts = next_front objectives remaining :: rest.
Proof.
  destruct remaining as [|i rem]; [congruence|]. intros _.
  destruct fuel as [|fuel]; cbn [pareto_loop]; [discriminate|].
  destruct (pareto_loop fuel objectives _) as [rest|]; cbn [option_map];
    [|discriminate].
  intros H. injection H as <-. now exists rest.
Qed.

Lemma pareto_sort_first_front (objectives : list objective_vector)
    (feasibles : list bool) (fronts : list front) :
  objectives <> [] ->
  pareto_sort objectives feasibles = Ok fronts ->
  exists rest,
    fronts = next_front objectives (seq 0 (length objectives)) :: rest.
Proof.
  intros Hne. unfold pareto_sort.
  destruct (pareto_loop _ objectives _) as [fs|] eqn:Hloop; [|discriminate].
  intros H. injection H as <-.
  assert (Hseq : seq 0 (length objectives) <> []).
  { destruct objectives; [congruence | discriminate]. }
  exact (pareto_loop_cons _ _ _ _ Hseq Hloop).
Qed.

(** C2.  For every evaluated population, no index of the first front
    returned by [pareto_sort] is dominated by any index of the population;
    and the first front of a non-empty population is not empty. *)
Theorem first_front_not_dominated (pop : population)
    (objs : list objective_vector) (feas : list bool) :
  evaluate_population pop = Ok (objs, feas) ->
  exists fronts,
    pareto_sort objs feas = Ok fronts /\
    (pop <> [] -> nth 0 fronts [] <> []) /\
    forall i, In i (nth 0 fronts []) ->
      forall j, (j < length pop)%nat ->
        dominates (row objs j) (row objs i) = false.
Proof.
  intros Hev. destruct (evaluate_population_shape pop objs feas Hev) as (Hn & _ & Hrect).
  destruct (pareto_sort_returns objs 2 Hrect feas) as (fronts & Hsort & _ & Hall).
  exists fronts. split; [exact Hsort|].
  destruct objs as [|r objs'] eqn:Hobjs.
  - destruct pop; [|discriminate]. split; [congruence|].
    intros i _ j Hj. cbn [length] in Hj. lia.
  - destruct (pareto_sort_first_front (r :: objs') feas fronts ltac:(discriminate) Hsort)
      as [rest ->].
    cbn [nth]. split.
    + intros _. now inversion Hall.
    + intros i Hi j Hj. apply in_next_front in Hi as [_ Hd].
      apply (proj1 (is_dominated_false _ _ _) Hd). apply in_seq. lia.
Qed.

Lemma first_front_not_dominated_witness :
  exists fronts,
    pareto_sort [[Fin 3; Fin 2]; [Fin 1; Fin 6]; [Fin 2; Fin 3]; [Fin 6; Fin 5]]
      [true; true; true; true] = Ok fronts /\
    nth 0 fronts [] <> [] /\
    forall i, In i (nth 0 fronts []) ->
      forall j, (j < 4)%nat ->
        dominates
          (row [[Fin 3; Fin 2]; [Fin 1; Fin 6]; [Fin 2; Fin 3]; [Fin 6; Fin 5]] j)
          (row [[Fin 3; Fin 2]; [Fin 1; Fin 6]; [Fin 2; Fin 3]; [Fin 6; Fin 5]] i)
        = false.
Proof.
  destruct (first_front_not_dominated
              [[Fin 1; Fin 1; Fin 1]; [Fin 0; Fin 0; Fin 1]; [Fin 1; Fin 0; Fin 1];
               [Fin 1; Fin 1; Fin 2]]
              [[Fin 3; Fin 2]; [Fin 1; Fin 6]; [Fin 2; Fin 3]; [Fin 6; Fin 5]]
              [true; true; true; true])
    as (fronts & Hsort & Hne & Hmin).
  - vm_compute. reflexivity.
  - exists fronts. split; [assumption|]. split; [apply Hne; discriminate | exact Hmin].
Defined.

(** C10.  For every non-empty rectangular objectives array, [pareto_sort]
    terminates.  Each pass of its loop over a non-empty set of remaining
    indices finds at least one index that no remaining index dominates, so
    the front of the pass is non-empty and the remaining set gets strictly
    shorter; the loop therefore ends within [N] passes, with any amount of
    fuel from [N] on giving the same fronts, each of them non-empty. *)
Theorem pareto_sort_terminates (objectives : list objective_vector) (M : nat)
    (feasibles : list bool) :
  objectives <> [] ->
  Forall (fun r => length r = M) objectives ->
  (forall remaining,
      remaining <> [] ->
      Forall (fun i => (i < length objectives)%nat) remaining ->
      (exists m, In m remaining /\ is_dominated objectives remaining m = false) /\
      next_front objectives remaining <> [] /\
      (length (remove_front remaining (next_front objectives remaining))
       < length remaining)%nat) /\
  exists fronts,
    pareto_sort objectives feasibles = Ok fronts /\
    fronts <> [] /\
    Forall (fun fr => fr <> []) fronts /\
    forall fuel, (length objectives <= fuel)%nat ->
      pareto_loop fuel objectives (seq 0 (length objectives)) = Some fronts.
Proof.
  intros Hne Hrect. split.
  - intros remaining Hrem Hvalid.
    pose proof (next_front_nonempty objectives M Hrect remaining Hrem Hvalid) as Hfr.
    split; [|split; [exact Hfr | exact (pass_shrinks objectives remaining Hfr)]].
    destruct (exists_minimal objectives M Hrect remaining Hrem Hvalid) as [m [Hm Hmin]].
    exists m. split; [assumption | now apply is_dominated_false].
  - destruct (pareto_sort_returns objectives M Hrect feasibles)
      as (fronts & Hsort & Hloop & Hall).
    exists fronts. split; [exact Hsort|].
    destruct (pareto_sort_first_front objectives feasibles fronts Hne Hsort)
      as [rest Hfronts].
    split; [rewrite Hfronts; discriminate|]. split; [exact Hall|].
    intros fuel Hfuel. exact (pareto_loop_more_fuel _ _ _ _ fuel Hloop Hfuel).
Qed.

Lemma pareto_sort_terminates_witness :
  pareto_sort [[Fin 3; Fin 2]; [Fin 1; Fin 6]; [Fin 2; Fin 3]; [Fin 4; Fin 4]] []
  = Ok [[0; 1; 2]; [3]]%nat /\
  exists fronts,
    Forall (fun fr : front => fr <> []) fronts /\
    pareto_loop 9 [[Fin 3; Fin 2]; [Fin 1; Fin 6]; [Fin 2; Fin 3]; [Fin 4; Fin 4]]
      (seq 0 4) = Some fronts.
Proof.
  split; [vm_compute; reflexivity|].
  destruct (pareto_sort_terminates
              [[Fin 3; Fin 2]; [Fin 1; Fin 6]; [Fin 2; Fin 3]; [Fin 4; Fin 4]] 2 [])
    as (_ & fronts & _ & _ & Hall & Hfuel).
  - discriminate.
  - repeat constructor.
  - exists fronts. split; [exact Hall|]. apply Hfuel. cbn [length]. lia.
Defined.

(** C4.  For every individual of a population passed to
    [evaluate_population] (every individual having the three coordinates the
    objective functions read): its total penalty is either exactly zero or
    positive; if it is exactly zero the returned objective values are the raw
    outputs of the objective functions and the feasibility flag is true; if
    it is positive each returned objective value is the raw value plus 1000
    times the penalty and the flag is false. *)
Theorem evaluate_population_penalty (pop : population) :
  Forall (fun ind => (3 <= length ind)%nat) pop ->
  exists objs feas,
    evaluate_population pop = Ok (objs, feas) /\
    length objs = length pop /\ length feas = length pop /\
    forall i ind, nth_error pop i = Some ind ->
      exists f1 f2 pen,
        objective_1 ind = Ok f1 /\ objective_2 ind = Ok f2 /\
        penalty ind = Ok pen /\
        (eqb pen zero = true \/ ltb zero pen = true) /\
        (eqb pen zero = true ->
           nth_error objs i = Some [f1; f2] /\ nth_error feas i = Some true) /\
        (ltb zero pen = true ->
           nth_error objs i
           = Some [add f1 (mul (Fin 1000) pen); add f2 (mul (Fin 1000) pen)] /\
           nth_error feas i = Some false).
Proof.
  intros Hdim. destruct (evaluate_population_ok pop Hdim) as (rows & Hrows & Hev).
  exists (map fst rows), (map snd rows). split; [exact Hev|].
  rewrite !length_map. pose proof (omap_length _ _ _ Hrows) as Hlen.
  split; [exact Hlen|]. split; [exact Hlen|].
  intros i ind Hind.
  destruct (omap_nth _ _ _ Hrows i ind Hind) as [[v b] [Hnth Hrow]].
  assert (H3 : (3 <= length ind)%nat).
  { exact (proj1 (Forall_forall _ _) Hdim ind (nth_error_In _ _ Hind)). }
  destruct (evaluate_individual_spec ind H3) as (f1 & f2 & pen & H1 & H2 & Hpen & Hspec).
  exists f1, f2, pen. repeat split; try assumption.
  - exact (nonneg_cases pen (penalty_nonneg ind pen Hpen)).
  - rewrite Hspec, H in Hrow. injection Hrow as <- <-.
    rewrite nth_error_map, Hnth. reflexivity.
  - rewrite Hspec, H in Hrow. injection Hrow as <- <-.
    rewrite nth_error_map, Hnth. reflexivity.
  - rewrite Hspec, (positive_not_zero pen H) in Hrow. injection Hrow as <- <-.
    rewrite nth_error_map, Hnth. reflexivity.
  - rewrite Hspec, (positive_not_zero pen H) in Hrow. injection Hrow as <- <-.
    rewrite nth_error_map, Hnth. reflexivity.
Qed.

Lemma evaluate_population_penalty_witness :
  exists objs feas,
    evaluate_population [[Fin 1; Fin 1; Fin 1]; [Fin 2; Fin 1; Fin 1]]
    = Ok (objs, feas) /\
    nth_error objs 0 = Some [Fin 3; Fin 2] /\ nth_error feas 0 = Some true /\
    nth_error feas 1 = Some false.
Proof.
  destruct (evaluate_population_penalty [[Fin 1; Fin 1; Fin 1]; [Fin 2; Fin 1; Fin 1]])
    as (objs & feas & Hev & _ & _ & Hrows).
  - repeat constructor.
  - exists objs, feas. split; [exact Hev|].
    destruct (Hrows 0%nat [Fin 1; Fin 1; Fin 1] eq_refl)
      as (f1 & f2 & pen & H1 & H2 & Hp & _ & Hzero & _).
    destruct (Hrows 1%nat [Fin 2; Fin 1; Fin 1] eq_refl)
      as (g1 & g2 & pen' & _ & _ & Gp & _ & _ & Gpos).
    vm_compute in H1, H2, Hp, Gp.
    injection H1 as <-. injection H2 as <-. injection Hp as <-. injection Gp as <-.
    destruct (Hzero eq_refl) as [Ho Hf]. destruct (Gpos eq_refl) as [_ Gf].
    repeat split; assumption.
Defined.

(** ** The pressure scheduler *)

Lemma update_pressure_value (t T : Z) :
  T <> 0%Z -> update_pressure t T = Ok (Fin (1 - inject_Z t / inject_Z T)).
Proof.
  intros HT. unfold update_pressure. destruct (Z.eqb_spec T 0); [contradiction|].
  reflexivity.
Qed.




(** ** Shapes of arrays *)

Lemma has_shape_row (n d : nat) (a : population) (i : nat) :
  has_shape n d a -> (i < n)%nat -> length (nth i a []) = d.
Proof.
  intros [Hn Hd] Hi. apply (proj1 (Forall_forall _ _) Hd).
  apply nth_In. lia.
Qed.

Lemma has_shape_shape (n d : nat) (a : population) :
  (0 < n)%nat -> has_shape n d a -> shape a = (n, d).
Proof.
  intros Hpos [Hn Hd]. unfold shape. destruct a as [|r a]; cbn [length] in *; [lia|].
  cbn [hd]. inversion Hd; subst. reflexivity.
Qed.

Lemma has_shape_map2 (f : float -> float -> float) (n d : nat) (a b : population) :
  has_shape n d a -> has_shape n d b -> has_shape n d (map2 (map2 f) a b).
Proof.
  intros [Ha Hda] [Hb Hdb]. split.
  - rewrite map2_length; [exact Ha | exact (eq_trans Ha (eq_sym Hb))].
  - eapply map2_Forall; [|exact Hda|exact Hdb]. cbn beta.
    intros u v Hu Hv.
    rewrite map2_length; [exact Hu | exact (eq_trans Hu (eq_sym Hv))].
Qed.

Lemma has_shape_map (f : individual -> individual) (n d : nat) (a : population) :
  (forall r, length r = d -> length (f r) = d) ->
  has_shape n d a -> has_shape n d (map f a).
Proof.
  intros Hf [Ha Hd]. split; [now rewrite length_map|].
  eapply map_Forall; [|exact Hd]. exact Hf.
Qed.

Lemma inflow_with_shape (n d : nat) (pop noise : population) (pressure : float) :
  has_shape n d pop -> has_shape n d noise ->
  has_shape n d (inflow_with pop pressure noise).
Proof.
  intros Hp Hn. unfold inflow_with, arr_add, arr_scale.
  apply has_shape_map2; [assumption|].
  apply has_shape_map; [|assumption]. intros r Hr. now rewrite length_map.
Qed.

Lemma outflow_with_shape (n d : nat) (pop r : population) (best : individual)
    (pressure : float) :
  has_shape n d pop -> has_shape n d r -> length best = d ->
  has_shape n d (outflow_with pop best pressure r).
Proof.
  intros Hp Hr Hb. unfold outflow_with, arr_add, arr_mul, arr_scale, arr_rsub.
  apply has_shape_map2; [assumption|]. apply has_shape_map2; [|assumption].
  apply has_shape_map; [intros u Hu; now rewrite length_map|].
  apply has_shape_map; [|assumption]. intros u Hu.
  unfold map2. rewrite length_map, length_combine, Hb, Hu. apply Nat.min_id.
Qed.

Lemma np_clip_shape (n d : nat) (a : population) (lo hi : float) :
  has_shape n d a -> has_shape n d (np_clip a lo hi).
Proof.
  intros H. unfold np_clip. apply has_shape_map; [|assumption].
  intros r Hr. now rewrite length_map.
Qed.

Lemma take_valid (a : population) (indices : list nat) :
  Forall (fun i => (i < length a)%nat) indices ->
  take a indices = Ok (map (fun i => nth i a []) indices).
Proof.
  unfold take. induction 1 as [|i idx Hi Hall IH]; [reflexivity|].
  cbn [omap map]. unfold getitem at 1.
  rewrite (nth_error_nth' a [] Hi). cbn [obind]. now rewrite IH.
Qed.

(** ** Running the monad *)

Lemma mbind_lift {A B} (o : outcome A) (a : A) (k : A -> M B) (g : rng) :
  o = Ok a -> mbind (lift o) k g = k a g.
Proof. intros ->. reflexivity. Qed.

Lemma mbind_lift_raise {A B} (o : outcome A) (e : exn) (k : A -> M B) (g : rng) :
  o = Raise e -> mbind (lift o) k g = Raise e.
Proof. intros ->. reflexivity. Qed.

Lemma mbind_run {A B} (m : M A) (a : A) (g g' : rng) (k : A -> M B) :
  m g = Ok (a, g') -> mbind m k g = k a g'.
Proof. intros H. unfold mbind. now rewrite H. Qed.

Lemma mbind_raise {A B} (m : M A) (e : exn) (g : rng) (k : A -> M B) :
  m g = Raise e -> mbind m k g = Raise e.
Proof. intros H. unfold mbind. now rewrite H. Qed.

Ltac step_lift H := rewrite (mbind_lift _ _ _ _ H); cbv beta iota zeta.
Ltac step_run H := rewrite (mbind_run _ _ _ _ _ H); cbv beta iota zeta.

(** ** One iteration of the main loop *)

(** One iteration on a population of [n > 0] individuals of dimension
    [d >= 3] runs to its end, and this is what it computes. *)
Lemma groa_iter_run (t T : Z) (pop : population) (n d : nat) (g : rng) :
  T <> 0%Z -> (0 < n)%nat -> (3 <= d)%nat -> has_shape n d pop ->
  exists p objs feas f0 rest k g1 noise g2 r g3,
    update_pressure t T = Ok (Fin p) /\
    evaluate_population pop = Ok (objs, feas) /\
    pareto_sort objs feas = Ok (f0 :: rest) /\
    np_randint (length f0) g = Ok (k, g1) /\
    (k < length f0)%nat /\ Forall (fun i => (i < n)%nat) f0 /\
    np_uniform (Fin (-1)) (Fin 1) (n, d) g1 = Ok (noise, g2) /\
    np_rand (n, d) g2 = Ok (r, g3) /\
    let best := nth (nth k f0 0%nat) pop [] in
    let pop1 := np_clip (inflow_with pop (Fin p) noise) zero one in
    let pop2 := np_clip (outflow_with pop1 best (Fin p) r) zero one in
    has_shape n d pop1 /\ has_shape n d pop2 /\
    groa_iter t T pop g = Ok ((pop2, map (fun i => nth i pop2 []) f0), g3) /\
    (all_finite pop -> all_in_unit pop1 /\ all_in_unit pop2).
Proof.
  intros HT Hn Hd Hshape. pose proof Hshape as [Hlen Hrows].
  pose proof (update_pressure_value t T HT) as Hp.
  assert (Hdim : Forall (fun ind => (3 <= length ind)%nat) pop).
  { eapply Forall_impl; [|exact Hrows]. cbn beta. intros r Hr. lia. }
  destruct (evaluate_population_ok pop Hdim) as (rows & _ & Hev).
  set (objs := map fst rows) in *. set (feas := map snd rows) in *.
  destruct (evaluate_population_shape pop objs feas Hev) as (Hobjs & _ & Hrect).
  destruct (pareto_sort_returns objs 2 Hrect feas) as (fronts & Hsort & _ & Hall).
  assert (Hne : objs <> []).
  { intros H. rewrite H in Hobjs. cbn [length] in Hobjs. lia. }
  destruct (pareto_sort_first_front objs feas fronts Hne Hsort) as [rest ->].
  set (f0 := next_front objs (seq 0 (length objs))) in *.
  assert (Hf0 : Forall (fun i => (i < length pop)%nat) f0).
  { apply Forall_forall. intros i Hi. apply in_next_front in Hi as [Hi _].
    apply in_seq in Hi. lia. }
  assert (Hf0ne : (0 < length f0)%nat).
  { inversion Hall as [|? ? Hfr _]; subst. destruct f0; [congruence | cbn; lia]. }
  destruct (np_randint_ok (length f0) g Hf0ne) as (k & g1 & Hk & Hklt).
  assert (Hidx : (nth k f0 0 < n)%nat).
  { rewrite <- Hlen. exact (proj1 (Forall_forall _ _) Hf0 _ (nth_In _ _ Hklt)). }
  destruct (np_uniform_ok (Fin (-1)) (Fin 1) (n, d) g1 eq_refl eq_refl)
    as (noise & g2 & Hnoise & Hnshape & Hnfin).
  destruct (np_rand_ok (n, d) g2) as (r & g3 & Hr & Hrshape & Hrfin).
  cbn [fst snd] in Hnshape, Hrshape.
  exists (1 - inject_Z t / inject_Z T), objs, feas, f0, rest, k, g1, noise, g2, r, g3.
  repeat (split; [assumption|]).
  split; [now rewrite <- Hlen|]. split; [assumption|]. split; [assumption|].
  cbv zeta.
  set (best := nth (nth k f0 0%nat) pop []).
  set (pop1 := np_clip (inflow_with pop (Fin (1 - inject_Z t / inject_Z T)) noise)
                 zero one).
  set (pop2 := np_clip (outflow_with pop1 best (Fin (1 - inject_Z t / inject_Z T)) r)
                 zero one).
  assert (Hbest : length best = d) by exact (has_shape_row n d pop _ Hshape Hidx).
  assert (Hs1 : has_shape n d pop1).
  { apply np_clip_shape, inflow_with_shape; assumption. }
  assert (Hs2 : has_shape n d pop2).
  { apply np_clip_shape, outflow_with_shape; assumption. }
  split; [exact Hs1|]. split; [exact Hs2|]. split.
  2:{ intros Hfin.
      assert (H1 : all_in_unit pop1).
      { apply np_clip_in_unit, inflow_with_finite; auto. }
      split; [exact H1|].
      apply np_clip_in_unit, outflow_with_finite; auto.
      - now apply all_in_unit_finite.
      - apply (proj1 (Forall_forall _ _) Hfin). apply nth_In. now rewrite Hlen. }
  unfold groa_iter.
  step_lift Hp. step_lift Hev. step_lift Hsort.
  rewrite (mbind_lift (getitem (f0 :: rest) 0) f0) by reflexivity. cbv beta iota zeta.
  step_lift (take_valid pop f0 Hf0).
  rewrite length_map. step_run Hk.
  assert (Hget : getitem (map (fun i => nth i pop []) f0) k = Ok best).
  { apply getitem_ok. rewrite nth_error_map, (nth_error_nth' f0 0%nat Hklt).
    reflexivity. }
  step_lift Hget.
  assert (Hin : inflow_phase pop (Fin (1 - inject_Z t / inject_Z T)) g1
                = Ok (inflow_with pop (Fin (1 - inject_Z t / inject_Z T)) noise, g2)).
  { unfold inflow_phase. rewrite (has_shape_shape n d pop Hn Hshape).
    now rewrite (mbind_run _ _ _ _ _ Hnoise). }
  step_run Hin. step_lift Hp. fold pop1.
  assert (Hout : outflow_phase pop1 best (Fin (1 - inject_Z t / inject_Z T)) g2
                 = Ok (outflow_with pop1 best (Fin (1 - inject_Z t / inject_Z T)) r, g3)).
  { unfold outflow_phase. rewrite (has_shape_shape n d pop1 Hn Hs1).
    now rewrite (mbind_run _ _ _ _ _ Hr). }
  step_run Hout. fold pop2.
  assert (Hf0' : Forall (fun i => (i < length pop2)%nat) f0).
  { destruct Hs2 as [-> _]. now rewrite <- Hlen. }
  step_lift (take_valid pop2 f0 Hf0'). reflexivity.
Qed.

(** C7.  In an iteration of the main loop on a population of [n > 0]
    individuals of dimension [d >= 3]: the fronts are computed from the
    population as it is before Inflow; [best] is the individual of that
    population at an index drawn from the first of these fronts, and the same
    [best] is what Outflow uses on the clamped result of Inflow; the archive
    is the population after Inflow and Outflow read at the index positions of
    that first front; and the loop goes on with the updated population and
    this archive, whatever the archive was before. *)
Theorem groa_iter_stale_front (t T : Z) (pop archive : population) (n d m : nat)
    (g : rng) :
  T <> 0%Z -> (0 < n)%nat -> (3 <= d)%nat -> has_shape n d pop ->
  exists p objs feas f0 rest k g1 noise g2 r g3,
    update_pressure t T = Ok (Fin p) /\
    evaluate_population pop = Ok (objs, feas) /\
    pareto_sort objs feas = Ok (f0 :: rest) /\
    np_randint (length f0) g = Ok (k, g1) /\
    In (nth k f0 0%nat) f0 /\
    np_uniform (Fin (-1)) (Fin 1) (n, d) g1 = Ok (noise, g2) /\
    np_rand (n, d) g2 = Ok (r, g3) /\
    let best := nth (nth k f0 0%nat) pop [] in
    let pop1 := np_clip (inflow_with pop (Fin p) noise) zero one in
    let pop2 := np_clip (outflow_with pop1 best (Fin p) r) zero one in
    let new_archive := map (fun i => nth i pop2 []) f0 in
    groa_iter t T pop g = Ok ((pop2, new_archive), g3) /\
    groa_loop (S m) t T pop archive g
    = groa_loop m (t + 1)%Z T pop2 new_archive g3.
Proof.
  intros HT Hn Hd Hshape.
  destruct (groa_iter_run t T pop n d g HT Hn Hd Hshape)
    as (p & objs & feas & f0 & rest & k & g1 & noise & g2 & r & g3 &
        Hp & Hev & Hsort & Hk & Hklt & _ & Hnoise & Hr & Hrun).
  cbv zeta in Hrun. destruct Hrun as (_ & _ & Hrun & _).
  exists p, objs, feas, f0, rest, k, g1, noise, g2, r, g3.
  repeat (split; [assumption|]).
  split; [now apply nth_In|]. split; [assumption|]. split; [assumption|].
  cbv zeta. split; [exact Hrun|].
  cbn [groa_loop]. now rewrite (mbind_run _ _ _ _ _ Hrun).
Qed.

Lemma groa_iter_stale_front_witness :
  exists f0 rest pop2 g3,
    pareto_sort [[Fin 3; Fin 2]; [Fin 1; Fin 6]] [true; true] = Ok (f0 :: rest) /\
    groa_iter 0 5 [[Fin 1; Fin 1; Fin 1]; [Fin 0; Fin 0; Fin 1]] test_rng
    = Ok ((pop2, map (fun i => nth i pop2 []) f0), g3).
Proof.
  destruct (groa_iter_stale_front 0 5 [[Fin 1; Fin 1; Fin 1]; [Fin 0; Fin 0; Fin 1]]
              [] 2 3 0 test_rng)
    as (p & objs & feas & f0 & rest & k & g1 & noise & g2 & r & g3 &
        _ & Hev & Hsort & _ & _ & _ & _ & Hrun).
  - discriminate.
  - lia.
  - lia.
  - split; [reflexivity | repeat constructor].
  - cbv zeta in Hrun. destruct Hrun as [Hrun _].
    vm_compute in Hev. injection Hev as <- <-.
    eexists f0, rest, _, g3. split; [exact Hsort | exact Hrun].
Defined.






(** ** Configurations *)

Lemma initialize_population_negative (pop_size dim : Z) (g : rng) :
  (pop_size < 0 \/ dim < 0)%Z ->
  initialize_population pop_size dim g = Raise ValueError.
Proof.
  intros H. unfold initialize_population.
  assert (Hc : ((pop_size <? 0) || (dim <? 0))%Z = true).
  { apply orb_true_iff. destruct H; [left | right]; now apply Z.ltb_lt. }
  now rewrite Hc.
Qed.

Lemma initialize_population_ok (pop_size dim : Z) (g : rng) :
  (0 <= pop_size)%Z -> (0 <= dim)%Z ->
  exists pop g',
    initialize_population pop_size dim g = Ok (pop, g') /\
    has_shape (Z.to_nat pop_size) (Z.to_nat dim) pop /\ all_finite pop.
Proof.
  intros Hp Hd. unfold initialize_population.
  assert (Hc : ((pop_size <? 0) || (dim <? 0))%Z = false).
  { apply orb_false_iff. split; apply Z.ltb_ge; assumption. }
  rewrite Hc. exact (np_rand_ok (Z.to_nat pop_size, Z.to_nat dim) g).
Qed.

Lemma groa_iter_empty (t T : Z) (g : rng) :
  T <> 0%Z -> groa_iter t T [] g = Raise IndexError.
Proof.
  intros HT. unfold groa_iter. step_lift (update_pressure_value t T HT). reflexivity.
Qed.

Lemma groa_iter_short (t T : Z) (ind : individual) (pop : population) (g : rng) :
  T <> 0%Z -> (length ind < 3)%nat -> groa_iter t T (ind :: pop) g = Raise IndexError.
Proof.
  intros HT Hshort. unfold groa_iter. step_lift (update_pressure_value t T HT).
  apply mbind_lift_raise. unfold evaluate_population.
  now rewrite (omap_raise _ _ _ _ (evaluate_individual_short ind Hshort)).
Qed.

(** C8, as the program has it.  [groa] checks nothing itself.  A negative
    population size or dimension is refused by the random-array constructor
    before any iteration, with [ValueError].  With a non-negative population
    size and dimension and a non-positive iteration count nothing is raised:
    the loop body never runs and the run returns an empty archive with empty
    objectives.  With a positive iteration count, a population size of 0, or
    a dimension below 3 with a positive population size, makes the first
    iteration raise [IndexError]. *)
Theorem groa_configuration (pop_size dim max_iter : Z) (g : rng) :
  ((pop_size < 0 \/ dim < 0)%Z ->
     initialize_population pop_size dim g = Raise ValueError /\
     groa pop_size dim max_iter g = Raise ValueError) /\
  ((0 <= pop_size)%Z -> (0 <= dim)%Z -> (max_iter <= 0)%Z ->
     exists g', groa pop_size dim max_iter g = Ok (([], []), g')) /\
  (pop_size = 0%Z -> (0 <= dim)%Z -> (0 < max_iter)%Z ->
     exists g',
       initialize_population pop_size dim g = Ok ([], g') /\
       groa_iter 0 max_iter [] g' = Raise IndexError /\
       groa pop_size dim max_iter g = Raise IndexError) /\
  ((0 < pop_size)%Z -> (0 <= dim < 3)%Z -> (0 < max_iter)%Z ->
     exists pop g',
       initialize_population pop_size dim g = Ok (pop, g') /\
       groa_iter 0 max_iter pop g' = Raise IndexError /\
       groa pop_size dim max_iter g = Raise IndexError).
Proof.
  split; [|split; [|split]].
  - intros Hneg. pose proof (initialize_population_negative pop_size dim g Hneg) as Hinit.
    split; [exact Hinit|]. unfold groa. now apply mbind_raise.
  - intros Hp Hd Hiter.
    destruct (initialize_population_ok pop_size dim g Hp Hd) as (pop & g' & Hinit & _).
    exists g'. unfold groa. step_run Hinit.
    replace (Z.to_nat max_iter) with 0%nat by lia. reflexivity.
  - intros -> Hd Hiter.
    destruct (initialize_population_ok 0 dim g ltac:(lia) Hd)
      as (pop & g' & Hinit & [Hlen _] & _).
    destruct pop; [|discriminate]. exists g'.
    pose proof (groa_iter_empty 0 max_iter g' ltac:(lia)) as Hit.
    repeat split; try assumption.
    unfold groa. step_run Hinit.
    destruct (Z.to_nat max_iter) as [|m] eqn:Hm; [lia|].
    apply mbind_raise. cbn [groa_loop]. now apply mbind_raise.
  - intros Hp Hd Hiter.
    destruct (initialize_population_ok pop_size dim g ltac:(lia) ltac:(lia))
      as (pop & g' & Hinit & [Hlen Hrows] & _).
    destruct pop as [|ind pop]; [cbn [length] in Hlen; lia|].
    assert (Hshort : (length ind < 3)%nat).
    { inversion Hrows as [|? ? Hind _]; subst. lia. }
    pose proof (groa_iter_short 0 max_iter ind pop g' ltac:(lia) Hshort) as Hit.
    exists (ind :: pop), g'. repeat split; try assumption.
    unfold groa. step_run Hinit.
    destruct (Z.to_nat max_iter) as [|m] eqn:Hm; [lia|].
    apply mbind_raise. cbn [groa_loop]. now apply mbind_raise.
Qed.

Lemma groa_configuration_witness :
  groa (-1) 3 200 test_rng = Raise ValueError /\
  (exists g', groa 100 3 (-5) test_rng = Ok (([], []), g')) /\
  groa 0 3 200 test_rng = Raise IndexError /\
  groa 100 0 200 test_rng = Raise IndexError.
Proof.
  split; [|split; [|split]].
  - apply (groa_configuration (-1) 3 200 test_rng). left. lia.
  - apply (groa_configuration 100 3 (-5) test_rng); lia.
  - destruct (groa_configuration 0 3 200 test_rng) as (_ & _ & H & _).
    destruct (H eq_refl ltac:(lia) ltac:(lia)) as (g' & _ & _ & Hrun). exact Hrun.
  - destruct (groa_configuration 100 0 200 test_rng) as (_ & _ & _ & H).
    destruct (H ltac:(lia) ltac:(lia) ltac:(lia)) as (pop & g' & _ & _ & Hrun).
    exact Hrun.
Defined.

(** C8 as stated fails: with an iteration count of 0 the run signals no
    error and returns a result, the empty archive and empty objectives. *)
Lemma groa_zero_iterations_returns :
  groa 100 3 0 test_rng = Ok (([], []), mk_rng (words test_rng) 300).
Proof. vm_compute. reflexivity. Qed.

(** ** Non-finite objective values *)

Lemma all_le_nan_r (a b : objective_vector) :
  length a = length b ->
  (exists v, In v b /\ is_nan v = true) ->
  forallb (fun p => leb (fst p) (snd p)) (combine a b) = false.
Proof.
  revert b. induction a as [|x a IH]; intros [|y b] Hlen [v [Hin Hnan]];
    try discriminate; try contradiction.
  cbn [combine forallb fst snd]. apply andb_false_iff.
  destruct Hin as [->|Hin].
  - left. destruct v; try discriminate. apply leb_nan_r.
  - right. apply IH; [now injection Hlen | now exists v].
Qed.

Lemma dominates_nan_r (a b : objective_vector) :
  length a = length b ->
  (exists v, In v b /\ is_nan v = true) ->
  dominates a b = false.
Proof.
  intros Hlen Hnan. unfold dominates. now rewrite (all_le_nan_r a b Hlen Hnan).
Qed.

(** C9, as the program has it.  Neither [evaluate_population] nor
    [pareto_sort] checks that objective values are finite.  Every population
    whose individuals have three coordinates, finite or not, is evaluated
    without an error, and its objective vectors, finite or not, are ranked:
    [pareto_sort] returns fronts that list every index once.  An index whose
    objective vector holds a NaN is dominated by none and is placed in the
    first front. *)
Theorem nonfinite_objectives_are_ranked (pop : population) :
  Forall (fun ind => (3 <= length ind)%nat) pop ->
  exists objs feas fronts,
    evaluate_population pop = Ok (objs, feas) /\
    pareto_sort objs feas = Ok fronts /\
    Permutation (concat fronts) (seq 0 (length pop)) /\
    forall i, (i < length pop)%nat ->
      (exists v, In v (row objs i) /\ is_nan v = true) ->
      In i (nth 0 fronts []).
Proof.
  intros Hdim. destruct (evaluate_population_ok pop Hdim) as (rows & _ & Hev).
  set (objs := map fst rows) in *. set (feas := map snd rows) in *.
  destruct (evaluate_population_shape pop objs feas Hev) as (Hn & _ & Hrect).
  destruct (pareto_sort_returns objs 2 Hrect feas) as (fronts & Hsort & _ & _).
  exists objs, feas, fronts. split; [exact Hev|]. split; [exact Hsort|].
  split; [rewrite <- Hn; exact (pareto_sort_perm objs feas fronts Hsort)|].
  intros i Hi Hnan.
  assert (Hne : objs <> []).
  { intros H. rewrite H in Hn. cbn [length] in Hn. lia. }
  destruct (pareto_sort_first_front objs feas fronts Hne Hsort) as [rest ->].
  cbn [nth]. apply in_next_front. split; [apply in_seq; lia|].
  apply is_dominated_false. intros j Hj. apply in_seq in Hj.
  apply dominates_nan_r; [|exact Hnan].
  rewrite !(row_length objs 2 Hrect) by lia. reflexivity.
Qed.

Lemma nonfinite_objectives_are_ranked_witness :
  exists objs feas fronts,
    evaluate_population [[Fin 1; Fin 1; Fin 1]; [NaN; Fin 0; Fin 1]] = Ok (objs, feas) /\
    pareto_sort objs feas = Ok fronts /\
    In 1%nat (nth 0 fronts []).
Proof.
  destruct (nonfinite_objectives_are_ranked [[Fin 1; Fin 1; Fin 1]; [NaN; Fin 0; Fin 1]])
    as (objs & feas & fronts & Hev & Hsort & _ & Hnan).
  - repeat constructor.
  - exists objs, feas, fronts. split; [exact Hev|]. split; [exact Hsort|].
    apply Hnan; [cbn [length]; lia|].
    vm_compute in Hev. injection Hev as <- <-.
    exists NaN. split; [now left | reflexivity].
Defined.

(** C9 as stated fails: a population whose evaluation produces NaN, or an
    infinite value, is evaluated without an error and the non-finite
    objective vector is ranked, here into the first front. *)
Lemma nonfinite_objective_not_rejected :
  evaluate_population [[NaN; Fin 0; Fin 1]] = Ok ([[NaN; NaN]], [true]) /\
  pareto_sort [[NaN; NaN]] [true] = Ok [[0%nat]] /\
  evaluate_population [[Inf false; Fin 0; Fin 1]]
  = Ok ([[Inf false; Inf false]], [false]) /\
  pareto_sort [[Inf false; Inf false]] [false] = Ok [[0%nat]].
Proof. repeat split; vm_compute; reflexivity. Qed.

(** ** Whole runs *)

Lemma rows_at_in_unit (n d : nat) (a : population) (indices : list nat) :
  has_shape n d a -> all_in_unit a -> Forall (fun i => (i < n)%nat) indices ->
  has_shape (length indices) d (map (fun i => nth i a []) indices) /\
  all_in_unit (map (fun i => nth i a []) indices).
Proof.
  intros Hshape Hunit Hidx. split; [split|].
  - now rewrite length_map.
  - eapply map_Forall; [|exact Hidx]. cbn beta. intros i Hi.
    exact (has_shape_row n d a i Hshape Hi).
  - eapply map_Forall; [|exact Hidx]. cbn beta. intros i Hi.
    apply (proj1 (Forall_forall _ _) Hunit). apply nth_In.
    destruct Hshape as [-> _]. exact Hi.
Qed.

(** The loop keeps the shape of the population, keeps its coordinates real,
    and leaves an archive of individuals of dimension [d] with coordinates in
    [[0, 1]]. *)
Lemma groa_loop_invariant (T : Z) (n d : nat) :
  T <> 0%Z -> (0 < n)%nat -> (3 <= d)%nat ->
  forall m t pop archive g,
    has_shape n d pop -> all_finite pop ->
    Forall (fun r => length r = d) archive -> all_in_unit archive ->
    exists pop' archive' g',
      groa_loop m t T pop archive g = Ok ((pop', archive'), g') /\
      has_shape n d pop' /\ all_finite pop' /\
      Forall (fun r => length r = d) archive' /\ all_in_unit archive'.
Proof.
  intros HT Hn Hd. induction m as [|m IH]; intros t pop archive g Hshape Hfin Hrows Hunit.
  - exists pop, archive, g. repeat split; try assumption; apply Hshape.
  - destruct (groa_iter_run t T pop n d g HT Hn Hd Hshape)
      as (p & objs & feas & f0 & rest & k & g1 & noise & g2 & r & g3 &
          _ & _ & _ & _ & _ & Hidx & _ & _ & Hrun).
    cbv zeta in Hrun. destruct Hrun as (_ & Hs2 & Hrun & Hclamp).
    destruct (Hclamp Hfin) as [_ Hu2].
    destruct (rows_at_in_unit n d _ f0 Hs2 Hu2 Hidx) as [[_ Harows] Haunit].
    cbn [groa_loop]. rewrite (mbind_run _ _ _ _ _ Hrun).
    apply IH; try assumption. now apply all_in_unit_finite.
Qed.

(** A run with a positive population size, a dimension of at least 3 and a
    positive iteration count returns: an archive with every coordinate in
    [[0, 1]] and one objective vector per archived individual. *)
Lemma groa_returns (pop_size dim max_iter : Z) (g : rng) :
  (0 < pop_size)%Z -> (3 <= dim)%Z -> (0 < max_iter)%Z ->
  exists archive objs g',
    groa pop_size dim max_iter g = Ok ((archive, objs), g') /\
    all_in_unit archive /\ length objs = length archive.
Proof.
  intros Hp Hd Hiter.
  destruct (initialize_population_ok pop_size dim g ltac:(lia) ltac:(lia))
    as (pop & g0 & Hinit & Hshape & Hfin).
  destruct (groa_loop_invariant max_iter (Z.to_nat pop_size) (Z.to_nat dim)
              ltac:(lia) ltac:(lia) ltac:(lia) (Z.to_nat max_iter) 0%Z pop [] g0
              Hshape Hfin ltac:(constructor) ltac:(constructor))
    as (pop' & archive & g' & Hloop & _ & _ & Hrows & Hunit).
  assert (Hdim : Forall (fun ind => (3 <= length ind)%nat) archive).
  { eapply Forall_impl; [|exact Hrows]. cbn beta. intros r Hr. lia. }
  destruct (evaluate_population_ok archive Hdim) as (rows & _ & Hev).
  destruct (evaluate_population_shape archive _ _ Hev) as (Hlen & _ & _).
  exists archive, (map fst rows), g'. split; [|split; assumption].
  unfold groa. step_run Hinit. step_run Hloop. step_lift Hev. reflexivity.
Qed.

(* ------------------------------------------------------------------ *)
(** * Further properties of the ranker *)

(** Every front of the loop is the front of one pass over some set of
    remaining indices. *)
Lemma pareto_loop_fronts_are_passes (objectives : list objective_vector)
    (fuel : nat) :
  forall remaining fronts,
    pareto_loop fuel objectives remaining = Some fronts ->
    forall fr, In fr fronts ->
      exists rem, incl rem remaining /\ fr = next_front objectives rem.
Proof.
  induction fuel as [|fuel IH]; intros [|i rem] fronts H fr Hfr;
    cbn [pareto_loop] in H; try discriminate.
  - injection H as <-. contradiction.
  - injection H as <-. contradiction.
  - destruct (pareto_loop fuel objectives _) as [rest|] eqn:Hrest; [|discriminate].
    injection H as <-. destruct Hfr as [<-|Hfr].
    + exists (i :: rem). split; [apply incl_refl | reflexivity].
    + destruct (IH _ _ Hrest fr Hfr) as [rem' [Hincl Heq]].
      exists rem'. split; [|exact Heq].
      intros x Hx. apply Hincl in Hx. unfold remove_front in Hx.
      now apply filter_In in Hx.
Qed.

Lemma filter_strongly_sorted (p : nat -> bool) (l : list nat) :
  StronglySorted lt l -> StronglySorted lt (filter p l).
Proof.
  induction 1 as [|x l Hl IH Hx]; cbn [filter]; [constructor|].
  destruct (p x); [|exact IH]. constructor; [exact IH|].
  apply Forall_forall. intros y Hy. apply filter_In in Hy as [Hy _].
  exact (proj1 (Forall_forall _ _) Hx y Hy).
Qed.

Lemma seq_strongly_sorted (start len : nat) : StronglySorted lt (seq start len).
Proof.
  revert start. induction len as [|len IH]; intros start; cbn [seq]; constructor.
  - apply IH.
  - apply Forall_forall. intros y Hy. apply in_seq in Hy. lia.
Qed.

Lemma pareto_loop_sorted (objectives : list objective_vector) (fuel : nat) :
  forall remaining fronts,
    StronglySorted lt remaining ->
    pareto_loop fuel objectives remaining = Some fronts ->
    Forall (StronglySorted lt) fronts.
Proof.
  induction fuel as [|fuel IH]; intros [|i rem] fronts Hs H;
    cbn [pareto_loop] in H; try discriminate.
  - injection H as <-. constructor.
  - injection H as <-. constructor.
  - destruct (pareto_loop fuel objectives _) as [rest|] eqn:Hrest; [|discriminate].
    injection H as <-. constructor.
    + unfold next_front. now apply filter_strongly_sorted.
    + eapply IH; [|exact Hrest]. unfold remove_front.
      now apply filter_strongly_sorted.
Qed.

Lemma nonempty_blocks_length {A} (ls : list (list A)) :
  Forall (fun l => l <> []) ls -> (length ls <= length (concat ls))%nat.
Proof.
  induction 1 as [|l ls Hl _ IH]; cbn [concat length]; [lia|].
  rewrite length_app. destruct l; [congruence | cbn [length]; lia].
Qed.

Section Layers.

Variable objectives : list objective_vector.
Variable M : nat.
Hypothesis rectangular : Forall (fun r => length r = M) objectives.

(** An index that some remaining index dominates is dominated by an index
    of the front of the pass. *)
Lemma dominated_by_front (remaining : list nat) (i : nat) :
  valid_indices objectives remaining -> In i remaining ->
  is_dominated objectives remaining i = true ->
  exists j, In j (next_front objectives remaining) /\
            dominates (row objectives j) (row objectives i) = true.
Proof.
  intros Hv Hi Hd.
  set (D := filter (fun j => dominates (row objectives j) (row objectives i)) remaining).
  assert (HvD : valid_indices objectives D).
  { apply Forall_forall. intros j Hj. apply filter_In in Hj as [Hj _].
    exact (proj1 (Forall_forall _ _) Hv j Hj). }
  assert (HneD : D <> []).
  { unfold is_dominated in Hd. apply existsb_exists in Hd as [j [Hj Hji]].
    apply andb_true_iff in Hji as [_ Hji].
    assert (Hin : In j D) by (apply filter_In; now split).
    intros Heq. rewrite Heq in Hin. contradiction. }
  destruct (exists_minimal objectives M rectangular D HneD HvD) as [m [Hm Hmin]].
  apply filter_In in Hm as [Hm Hmi]. exists m. split; [|exact Hmi].
  apply in_next_front. split; [exact Hm|]. apply is_dominated_false.
  intros j Hj. apply not_true_iff_false. intros Hjm.
  assert (Hlt : forall x, In x remaining -> (x < length objectives)%nat)
    by exact (proj1 (Forall_forall _ _) Hv).
  assert (Hji : dominates (row objectives j) (row objectives i) = true).
  { apply (dominates_trans _ (row objectives m)); auto;
      rewrite !(row_length objectives M rectangular); auto. }
  assert (HjD : In j D) by (apply filter_In; now split).
  rewrite (Hmin j HjD) in Hjm. discriminate.
Qed.

Lemma pareto_loop_layers (fuel : nat) :
  forall remaining fronts,
    valid_indices objectives remaining ->
    pareto_loop fuel objectives remaining = Some fronts ->
    forall k i, In i (nth (S k) fronts []) ->
      exists j, In j (nth k fronts []) /\
                dominates (row objectives j) (row objectives i) = true.
Proof.
  induction fuel as [|fuel IH]; intros [|x rem] fronts Hv H k i Hi;
    cbn [pareto_loop] in H; try discriminate.
  - injection H as <-. destruct k; contradiction.
  - injection H as <-. destruct k; contradiction.
  - destruct (pareto_loop fuel objectives _) as [rest|] eqn:Hrest; [|discriminate].
    injection H as <-. cbn [nth] in Hi.
    set (remaining := x :: rem) in *.
    assert (Hv' : valid_indices objectives
                    (remove_front remaining (next_front objectives remaining))).
    { now apply remove_front_valid. }
    destruct k as [|k].
    + cbn [nth]. destruct rest as [|fr' rest']; [contradiction|].
      cbn [nth] in Hi. rewrite (pareto_loop_head _ _ _ _ _ Hrest) in Hi.
      apply in_next_front in Hi as [Hi _].
      rewrite remove_next_front in Hi. apply filter_In in Hi as [Hi Hd].
      exact (dominated_by_front remaining i Hv Hi Hd).
    + exact (IH _ _ Hv' Hrest k i Hi).
Qed.

End Layers.

(** X1.  Within every front returned by [pareto_sort] no index dominates
    another: the members of a front are mutually non-dominated. *)
Theorem fronts_mutually_nondominated (objectives : list objective_vector)
    (feasibles : list bool) (fronts : list front) :
  pareto_sort objectives feasibles = Ok fronts ->
  forall fr, In fr fronts ->
    forall i j, In i fr -> In j fr ->
      dominates (row objectives j) (row objectives i) = false.
Proof.
  unfold pareto_sort.
  destruct (pareto_loop _ objectives _) as [fs|] eqn:Hloop; [|discriminate].
  intros H fr Hfr i j Hi Hj. injection H as <-.
  destruct (pareto_loop_fronts_are_passes _ _ _ _ Hloop fr Hfr) as [rem [_ ->]].
  apply in_next_front in Hi as [_ Hd]. apply in_next_front in Hj as [Hj _].
  exact (proj1 (is_dominated_false _ _ _) Hd j Hj).
Qed.

Lemma fronts_mutually_nondominated_witness :
  dominates (row [[Fin 3; Fin 2]; [Fin 1; Fin 6]; [Fin 2; Fin 3]; [Fin 4; Fin 4]] 2)
            (row [[Fin 3; Fin 2]; [Fin 1; Fin 6]; [Fin 2; Fin 3]; [Fin 4; Fin 4]] 0)
  = false.
Proof.
  apply (fronts_mutually_nondominated
           [[Fin 3; Fin 2]; [Fin 1; Fin 6]; [Fin 2; Fin 3]; [Fin 4; Fin 4]] []
           [[0; 1; 2]; [3]]%nat eq_refl [0; 1; 2]%nat).
  - now left.
  - now left.
  - right. right. now left.
Defined.

(** X2.  For a rectangular objectives array, every index of a front after
    the first is dominated by some index of the front just before it. *)
Theorem later_front_dominated_by_previous (objectives : list objective_vector)
    (M : nat) (feasibles : list bool) (fronts : list front) :
  Forall (fun r => length r = M) objectives ->
  pareto_sort objectives feasibles = Ok fronts ->
  forall k i, In i (nth (S k) fronts []) ->
    exists j, In j (nth k fronts []) /\
              dominates (row objectives j) (row objectives i) = true.
Proof.
  intros Hrect. unfold pareto_sort.
  destruct (pareto_loop _ objectives _) as [fs|] eqn:Hloop; [|discriminate].
  intros H. injection H as <-.
  exact (pareto_loop_layers objectives M Hrect _ _ _ (seq_valid objectives) Hloop).
Qed.

Lemma later_front_dominated_by_previous_witness :
  exists j,
    In j [0; 1; 2]%nat /\
    dominates (row [[Fin 3; Fin 2]; [Fin 1; Fin 6]; [Fin 2; Fin 3]; [Fin 4; Fin 4]] j)
              (row [[Fin 3; Fin 2]; [Fin 1; Fin 6]; [Fin 2; Fin 3]; [Fin 4; Fin 4]] 3)
    = true.
Proof.
  apply (later_front_dominated_by_previous
           [[Fin 3; Fin 2]; [Fin 1; Fin 6]; [Fin 2; Fin 3]; [Fin 4; Fin 4]] 2 []
           [[0; 1; 2]; [3]]%nat ltac:(repeat constructor) eq_refl 0%nat 3%nat).
  now left.
Defined.

(** X3.  For a rectangular array of [N] rows [pareto_sort] returns at most
    [N] fronts, and every front lists its indices in increasing order. *)
Theorem fronts_count_and_order (objectives : list objective_vector) (M : nat)
    (feasibles : list bool) :
  Forall (fun r => length r = M) objectives ->
  exists fronts,
    pareto_sort objectives feasibles = Ok fronts /\
    (length fronts <= length objectives)%nat /\
    Forall (StronglySorted lt) fronts.
Proof.
  intros Hrect.
  destruct (pareto_sort_returns objectives M Hrect feasibles)
    as (fronts & Hsort & Hloop & Hall).
  exists fronts. split; [exact Hsort|]. split.
  - pose proof (nonempty_blocks_length fronts Hall) as Hlen.
    rewrite (Permutation_length (pareto_sort_perm _ _ _ Hsort)), length_seq in Hlen.
    exact Hlen.
  - exact (pareto_loop_sorted _ _ _ _ (seq_strongly_sorted _ _) Hloop).
Qed.

Lemma fronts_count_and_order_witness :
  exists fronts,
    pareto_sort [[Fin 3; Fin 2]; [Fin 1; Fin 6]; [Fin 2; Fin 3]; [Fin 4; Fin 4]] []
    = Ok fronts /\
    (length fronts <= 4)%nat /\ Forall (StronglySorted lt) fronts.
Proof.
  apply (fronts_count_and_order
           [[Fin 3; Fin 2]; [Fin 1; Fin 6]; [Fin 2; Fin 3]; [Fin 4; Fin 4]] 2 []).
  repeat constructor.
Defined.

(* ------------------------------------------------------------------ *)
(** * Further properties of the evaluator *)

Lemma omap_evaluate_cases (pop : population) :
  (Forall (fun ind => (3 <= length ind)%nat) pop /\
   exists rows, omap evaluate_individual pop = Ok rows) \/
  (Exists (fun ind => (length ind < 3)%nat) pop /\
   omap evaluate_individual pop = Raise IndexError).
Proof.
  induction pop as [|ind pop IH].
  - left. split; [constructor | now exists []].
  - destruct (Nat.lt_ge_cases (length ind) 3) as [Hshort|Hlong].
    + right. split; [now constructor|].
      exact (omap_raise _ _ _ _ (evaluate_individual_short ind Hshort)).
    + destruct (evaluate_individual_spec ind Hlong) as (f1 & f2 & pen & _ & _ & _ & Hev).
      destruct IH as [[Hall [rows Hrows]]|[Hex Hraise]].
      * left. split; [now constructor|]. eexists. cbn [omap].
        rewrite Hev, Hrows. reflexivity.
      * right. split; [now apply Exists_cons_tl|]. cbn [omap].
        rewrite Hev, Hraise. reflexivity.
Qed.

(** X4.  [evaluate_population] fails in one way only: it raises
    [IndexError] exactly when some individual has fewer than the three
    coordinates the objective functions index; otherwise it returns one
    objective vector of two values and one flag per individual. *)
Theorem evaluate_population_errors (pop : population) :
  (evaluate_population pop = Raise IndexError <->
   Exists (fun ind => (length ind < 3)%nat) pop) /\
  (forall e, evaluate_population pop = Raise e -> e = IndexError) /\
  evaluate_population pop <> OutOfFuel /\
  (forall objs feas, evaluate_population pop = Ok (objs, feas) ->
     Forall (fun ind => (3 <= length ind)%nat) pop /\
     length objs = length pop /\ length feas = length pop /\
     Forall (fun r => length r = 2%nat) objs).
Proof.
  unfold evaluate_population at 1 2 3.
  destruct (omap_evaluate_cases pop) as [[Hall [rows Hrows]]|[Hex Hraise]].
  - rewrite Hrows. cbn [obind]. split; [|split; [|split]]; try discriminate.
    + split; [discriminate|]. intros Hex. exfalso.
      apply Exists_exists in Hex as [ind [Hin Hshort]].
      pose proof (proj1 (Forall_forall _ _) Hall ind Hin) as Hlong.
      cbn beta in Hlong. lia.
    + intros objs feas Hev. split; [exact Hall|].
      exact (evaluate_population_shape pop objs feas Hev).
  - rewrite Hraise. cbn [obind]. split; [|split; [|split]]; try discriminate.
    + split; auto.
    + intros e H. now injection H as <-.
    + intros objs feas Hev. exfalso. unfold evaluate_population in Hev.
      rewrite Hraise in Hev. discriminate.
Qed.

Ltac eval_real :=
  unfold evaluate_individual, objective_1, objective_2, penalty;
  cbn [getitem nth_error obind];
  unfold py_sum, py_max, pow2, sub, zero;
  cbn [fold_left opp add mul ltb].

Ltac q_bools :=
  repeat match goal with
         | H : Qlt_bool _ _ = true |- _ => apply Qlt_bool_iff in H
         | H : Qlt_bool _ _ = false |- _ => apply Qlt_bool_false_iff in H
         | H : Qeq_bool _ _ = true |- _ => apply Qeq_bool_iff in H
         | H : Qeq_bool _ _ = false |- _ => apply Qeq_bool_neq in H
         | H : Qle_bool _ _ = true |- _ => apply Qle_bool_iff in H
         end.

Ltac q_absurd :=
  exfalso; first [lra | match goal with H : ~ _ == _ |- _ => apply H; lra end].


(** X6.  Inside the unit hypercube, where the loop keeps every individual,
    the first constraint cannot be violated, so an individual is feasible
    exactly when [x2 >= 0.5]; both returned objective values are finite, the
    first in [[0, 503]] and the second in [[1, 506]]. *)
Theorem evaluate_in_unit_cube (x0 x1 x2 : float) (rest : individual) :
  in_unit x0 -> in_unit x1 -> in_unit x2 ->
  exists a b flag,
    evaluate_individual (x0 :: x1 :: x2 :: rest) = Ok ([Fin a; Fin b], flag) /\
    0 <= a <= 503 /\ 1 <= b <= 506 /\
    (flag = true <-> leb (Fin 0.5) x2 = true).
Proof.
  destruct x0 as [x0| |], x1 as [x1| |], x2 as [x2| |]; cbn [in_unit]; try tauto.
  intros H0 H1 H2. eval_real.
  repeat match goal with
         | |- context [Qlt_bool ?a ?b] => destruct (Qlt_bool a b) eqn:?
         end; cbn [add eqb leb].
  all: match goal with
       | |- context [Qeq_bool ?p 0] => destruct (Qeq_bool p 0) eqn:?
       end.
  all: cbn [mul add]; eexists _, _, _; (split; [reflexivity|]); q_bools.
  all: rewrite Qle_bool_iff.
  all: try (exfalso; lra).
  all: repeat split; try nra; try (intros; lra); try discriminate;
    try (intros; q_absurd).
Qed.

Lemma evaluate_in_unit_cube_witness :
  exists a b,
    evaluate_individual [Fin 1; Fin 1; Fin 0] = Ok ([Fin a; Fin b], false) /\
    0 <= a <= 503 /\ 1 <= b <= 506.
Proof.
  destruct (evaluate_in_unit_cube (Fin 1) (Fin 1) (Fin 0) [])
    as (a & b & flag & Hev & Ha & Hb & Hflag); try (cbn; lra).
  exists a, b. split; [|split; assumption].
  destruct flag; [|exact Hev].
  destruct Hflag as [Hflag _]. specialize (Hflag eq_refl). discriminate.
Defined.

(* ------------------------------------------------------------------ *)
(** * Further properties of the generator, the phase operators and runs *)

Lemma random_sample_range (g : rng) : in_half_open (fst (random_sample g)).
Proof.
  unfold random_sample, in_half_open. cbn [fst].
  pose proof (Z.mod_pos_bound (words g (pos g)) (Zpos two53) ltac:(lia)) as Hb.
  unfold Qle, Qlt. cbn [Qnum Qden]. lia.
Qed.

Lemma sample_row_range (d : nat) (g : rng) :
  Forall in_half_open (fst (sample_row d g)).
Proof.
  revert g. induction d as [|d IH]; intros g; cbn [sample_row]; [constructor|].
  pose proof (random_sample_range g) as Hu.
  destruct (random_sample g) as [u g1]. specialize (IH g1).
  destruct (sample_row d g1) as [us g2]. cbn [fst] in *. now constructor.
Qed.

Lemma sample_rows_range (n d : nat) (g : rng) :
  Forall (Forall in_half_open) (fst (sample_rows n d g)).
Proof.
  revert g. induction n as [|n IH]; intros g; cbn [sample_rows]; [constructor|].
  pose proof (sample_row_range d g) as Hr.
  destruct (sample_row d g) as [r g1]. specialize (IH g1).
  destruct (sample_rows n d g1) as [rs g2]. cbn [fst] in *. now constructor.
Qed.

Lemma np_rand_range (sh : nat * nat) (g : rng) :
  exists r g',
    np_rand sh g = Ok (r, g') /\ has_shape (fst sh) (snd sh) r /\
    Forall (Forall in_half_open) r.
Proof.
  unfold np_rand.
  pose proof (sample_rows_spec (fst sh) (snd sh) g) as [Hs _].
  pose proof (sample_rows_range (fst sh) (snd sh) g) as Hr.
  destruct (sample_rows (fst sh) (snd sh) g) as [r g']. now exists r, g'.
Qed.

(** X8.  [initialize_population] with a non-negative size and dimension
    returns [pop_size] individuals of [dim] coordinates, every coordinate in
    the half-open interval [[0, 1)]. *)
Theorem initialize_population_range (pop_size dim : Z) (g : rng) :
  (0 <= pop_size)%Z -> (0 <= dim)%Z ->
  exists pop g',
    initialize_population pop_size dim g = Ok (pop, g') /\
    has_shape (Z.to_nat pop_size) (Z.to_nat dim) pop /\
    Forall (Forall in_half_open) pop.
Proof.
  intros Hp Hd. unfold initialize_population.
  assert (Hc : ((pop_size <? 0) || (dim <? 0))%Z = false).
  { apply orb_false_iff. split; apply Z.ltb_ge; assumption. }
  rewrite Hc. exact (np_rand_range (Z.to_nat pop_size, Z.to_nat dim) g).
Qed.

Lemma initialize_population_range_witness :
  exists pop g',
    initialize_population 4 3 test_rng = Ok (pop, g') /\
    has_shape 4 3 pop /\ Forall (Forall in_half_open) pop.
Proof. apply (initialize_population_range 4 3 test_rng); lia. Defined.

(** The objective values of an individual whose first three coordinates are
    real are finite. *)
Lemma evaluate_individual_finite (x0 x1 x2 : Q) (rest : individual)
    (v : objective_vector) (b : bool) :
  evaluate_individual (Fin x0 :: Fin x1 :: Fin x2 :: rest) = Ok (v, b) ->
  Forall (fun x => is_finite x = true) v.
Proof.
  eval_real.
  repeat match goal with
         | |- context [Qlt_bool ?a ?b] => destruct (Qlt_bool a b) eqn:?
         end; cbn [add eqb].
  all: match goal with
       | |- context [Qeq_bool ?p 0] => destruct (Qeq_bool p 0) eqn:?
       end.
  all: cbn [mul add]; intros H; injection H as <- _; repeat constructor.
Qed.

(** Objective vectors of a population inside the unit hypercube are
    finite. *)
Lemma evaluate_unit_population_finite (pop : population)
    (objs : list objective_vector) (feas : list bool) :
  all_in_unit pop ->
  evaluate_population pop = Ok (objs, feas) ->
  all_finite objs.
Proof.
  intros Hunit Hev. unfold evaluate_population in Hev.
  destruct (omap evaluate_individual pop) as [rows| |] eqn:Hrows; cbn [obind] in Hev;
    try discriminate.
  injection Hev as <- <-. pose proof (omap_length _ _ _ Hrows) as Hrl.
  apply Forall_forall. intros r Hr. apply in_map_iff in Hr as [[v b] [<- Hin]].
  destruct (In_nth_error _ _ Hin) as [i Hi].
  assert (Hlt : (i < length pop)%nat).
  { rewrite <- Hrl. apply nth_error_Some. congruence. }
  destruct (nth_error pop i) as [ind|] eqn:Hind;
    [|apply nth_error_None in Hind; lia].
  destruct (omap_nth _ _ _ Hrows i ind Hind) as [y [Hy Hrow]].
  rewrite Hi in Hy. injection Hy as <-.
  pose proof (proj1 (Forall_forall _ _) Hunit ind (nth_error_In _ _ Hind)) as Hu.
  destruct ind as [|x0 [|x1 [|x2 rest]]]; try discriminate.
  inversion Hu as [|? ? H0 Hu1]; subst. inversion Hu1 as [|? ? H1 Hu2]; subst.
  inversion Hu2 as [|? ? H2 _]; subst.
  destruct x0 as [x0| |], x1 as [x1| |], x2 as [x2| |]; cbn [in_unit] in *;
    try contradiction.
  cbn [fst]. exact (evaluate_individual_finite x0 x1 x2 rest v b Hrow).
Qed.

(** After at least one iteration the loop holds a population inside the
    unit hypercube and an archive of between 1 and [n] of its individuals. *)
Lemma groa_loop_positive (T : Z) (n d : nat) :
  T <> 0%Z -> (0 < n)%nat -> (3 <= d)%nat ->
  forall m t pop archive g,
    has_shape n d pop -> all_finite pop ->
    exists pop' archive' g',
      groa_loop (S m) t T pop archive g = Ok ((pop', archive'), g') /\
      has_shape n d pop' /\ all_in_unit pop' /\
      (1 <= length archive' <= n)%nat /\
      Forall (fun r => length r = d) archive' /\ all_in_unit archive' /\
      incl archive' pop'.
Proof.
  intros HT Hn Hd. induction m as [|m IH]; intros t pop archive g Hshape Hfin.
  - destruct (groa_iter_run t T pop n d g HT Hn Hd Hshape)
      as (p & objs & feas & f0 & rest & k & g1 & noise & g2 & r & g3 &
          _ & Hev & Hsort & _ & Hk & Hidx & _ & _ & Hrun).
    cbv zeta in Hrun. destruct Hrun as (_ & Hs2 & Hrun & Hclamp).
    destruct (Hclamp Hfin) as [_ Hu2].
    destruct (rows_at_in_unit n d _ f0 Hs2 Hu2 Hidx) as [[_ Harows] Haunit].
    destruct (evaluate_population_shape pop objs feas Hev) as (Hobjs & _ & _).
    assert (Hne : objs <> []).
    { intros E. rewrite E in Hobjs. destruct Hshape as [Hl _].
      rewrite Hl in Hobjs. cbn [length] in Hobjs. lia. }
    destruct (pareto_sort_first_front objs feas _ Hne Hsort) as [rest' Hf0].
    injection Hf0 as Hf0 _.
    assert (Hle : (length f0 <= n)%nat).
    { rewrite Hf0. unfold next_front.
      eapply Nat.le_trans; [apply filter_length_le|].
      rewrite length_seq, Hobjs. destruct Hshape as [-> _]. lia. }
    eexists _, _, g3. cbn [groa_loop]. rewrite (mbind_run _ _ _ _ _ Hrun).
    split; [reflexivity|]. split; [exact Hs2|]. split; [exact Hu2|].
    rewrite length_map. split; [lia|]. split; [exact Harows|].
    split; [exact Haunit|].
    intros x Hx. apply in_map_iff in Hx as [i [<- Hi]]. apply nth_In.
    destruct Hs2 as [-> _]. exact (proj1 (Forall_forall _ _) Hidx i Hi).
  - destruct (groa_iter_run t T pop n d g HT Hn Hd Hshape)
      as (p & objs & feas & f0 & rest & k & g1 & noise & g2 & r & g3 &
          _ & _ & _ & _ & _ & _ & _ & _ & Hrun).
    cbv zeta in Hrun. destruct Hrun as (_ & Hs2 & Hrun & Hclamp).
    destruct (Hclamp Hfin) as [_ Hu2].
    change (groa_loop (S (S m)) t T pop archive g)
      with (mbind (groa_iter t T pop)
              (fun x => match x with
                        | (pop', archive') =>
                            groa_loop (S m) (t + 1)%Z T pop' archive'
                        end) g).
    rewrite (mbind_run _ _ _ _ _ Hrun).
    apply IH; [exact Hs2 | now apply all_in_unit_finite].
Qed.

(** X11.  A run with a positive population size, a dimension of at least 3
    and a positive iteration count returns.  The archive it returns holds
    between 1 and [pop_size] individuals, each of [dim] coordinates in
    [[0, 1]]; the objectives it returns are the evaluation of that archive:
    one vector of two finite values per archived individual. *)
Theorem groa_run_result (pop_size dim max_iter : Z) (g : rng) :
  (0 < pop_size)%Z -> (3 <= dim)%Z -> (0 < max_iter)%Z ->
  exists archive objs feas g',
    groa pop_size dim max_iter g = Ok ((archive, objs), g') /\
    (1 <= length archive <= Z.to_nat pop_size)%nat /\
    has_shape (length archive) (Z.to_nat dim) archive /\
    all_in_unit archive /\
    evaluate_population archive = Ok (objs, feas) /\
    has_shape (length archive) 2 objs /\
    all_finite objs.
Proof.
  intros Hp Hd Hiter.
  destruct (initialize_population_ok pop_size dim g ltac:(lia) ltac:(lia))
    as (pop & g0 & Hinit & Hshape & Hfin).
  destruct (Z.to_nat max_iter) as [|m] eqn:Hm; [lia|].
  destruct (groa_loop_positive max_iter (Z.to_nat pop_size) (Z.to_nat dim)
              ltac:(lia) ltac:(lia) ltac:(lia) m 0%Z pop [] g0 Hshape Hfin)
    as (pop' & archive & g' & Hloop & _ & _ & Hlen & Hrows & Hunit & _).
  assert (Hdim : Forall (fun ind => (3 <= length ind)%nat) archive).
  { eapply Forall_impl; [|exact Hrows]. cbn beta. intros r Hr. lia. }
  destruct (evaluate_population_ok archive Hdim) as (rows & _ & Hev).
  destruct (evaluate_population_shape archive _ _ Hev) as (Hol & _ & Hw).
  exists archive, (map fst rows), (map snd rows), g'.
  split; [|split; [exact Hlen|]; split; [split; [reflexivity | exact Hrows]|];
           split; [exact Hunit|]; split; [exact Hev|];
           split; [split; [exact Hol | exact Hw]|]].
  - unfold groa. step_run Hinit. rewrite Hm. step_run Hloop. step_lift Hev.
    reflexivity.
  - exact (evaluate_unit_population_finite archive _ _ Hunit Hev).
Qed.

Lemma groa_run_result_witness :
  exists archive objs g',
    groa 3 3 2 test_rng = Ok ((archive, objs), g') /\
    (1 <= length archive <= 3)%nat /\ all_in_unit archive /\ all_finite objs.
Proof.
  destruct (groa_run_result 3 3 2 test_rng)
    as (archive & objs & feas & g' & Hrun & Hlen & _ & Hunit & _ & _ & Hfin);
    try lia.
  exists archive, objs, g'. repeat split; try assumption; apply Hlen.
Defined.

(** X12.  However many iterations are run from a population of [n > 0]
    individuals of dimension [d >= 3] with real coordinates, the loop ends
    with a population of the same [n] by [d] shape; after at least one
    iteration every coordinate of it lies in [[0, 1]] and the archive is made
    of individuals of that final population. *)
Theorem groa_loop_keeps_population (T : Z) (n d m : nat) (t : Z)
    (pop archive : population) (g : rng) :
  T <> 0%Z -> (0 < n)%nat -> (3 <= d)%nat ->
  has_shape n d pop -> all_finite pop ->
  exists pop' archive' g',
    groa_loop m t T pop archive g = Ok ((pop', archive'), g') /\
    has_shape n d pop' /\
    ((0 < m)%nat -> all_in_unit pop' /\ incl archive' pop' /\ archive' <> []).
Proof.
  intros HT Hn Hd Hshape Hfin. destruct m as [|m].
  - exists pop, archive, g. split; [reflexivity|]. split; [exact Hshape|]. lia.
  - destruct (groa_loop_positive T n d HT Hn Hd m t pop archive g Hshape Hfin)
      as (pop' & archive' & g' & Hloop & Hs & Hu & Hlen & _ & _ & Hincl).
    exists pop', archive', g'. split; [exact Hloop|]. split; [exact Hs|].
    intros _. split; [exact Hu|]. split; [exact Hincl|].
    intros E. rewrite E in Hlen. cbn [length] in Hlen. lia.
Qed.

Lemma groa_loop_keeps_population_witness :
  exists pop' archive' g',
    groa_loop 2 0 5 [[Fin 1; Fin 1; Fin 1]; [Fin 0; Fin 0; Fin 1]] [] test_rng
    = Ok ((pop', archive'), g') /\
    has_shape 2 3 pop' /\ all_in_unit pop' /\ incl archive' pop'.
Proof.
  destruct (groa_loop_keeps_population 5 2 3 2 0
              [[Fin 1; Fin 1; Fin 1]; [Fin 0; Fin 0; Fin 1]] [] test_rng)
    as (pop' & archive' & g' & Hloop & Hs & Hpos).
  - discriminate.
  - lia.
  - lia.
  - split; [reflexivity | repeat constructor].
  - repeat constructor.
  - exists pop', archive', g'. destruct (Hpos ltac:(lia)) as (Hu & Hincl & _).
    repeat split; try assumption; apply Hs.
Defined.
